(** * Dynamic range-minimum structure on a rank-indexed AVL tree

    A shallow embedding of [include/avl_rmq.hpp] (class [avl_rmq<K,S>]) and the
    proofs of its rank, minimum and balance invariants, and of the positional
    meaning of [insert], [update], [operator[]] and [operator()].

    Modelling choices.
    - [K], the key type, is a template parameter; it is modelled by [Z].
      Overflow of the key type is outside the scope of the structure. The
      subtractions on keys in [search], [update], [insert] and [min_range]
      stand behind a comparison that makes them non-negative; the two that do
      not ([y->rank -= x->rank] in [right_rotate] and [rank -= node->rank]
      in [insert]) are non-negative on trees that satisfy the rank invariant.
    - [d_t], the depth type, and the [int8_t] of [get_balance] are modelled
      by [Z]: the depth of a balanced tree stays far below their range.
    - [S], the value type, is a template parameter; it is modelled by [Z],
      with [std::numeric_limits<S>::max()] as the section variable [S_max];
      a value [v] of type [S] satisfies [v <= S_max].
    - A [node_t*] is an owned subtree: [Nil] is [nullptr]. Dereferencing
      [nullptr] is modelled by [None] in the option monad.
    - The object state is the pair of the members [root] and [n_nodes]. The
      constructor does not initialise [n_nodes]; the model makes its initial
      content a parameter, and the call sequences considered start from 0. *)

From Stdlib Require Import ZArith Lia Bool.
From stdpp Require Import base option list.

Local Open Scope Z_scope.

(** ** Data model *)

Definition K := Z.
Definition S_t := Z.
Definition d_t := Z.

(** [struct node_t]: rank, value, min, depth, left, right. *)
Inductive node_t : Type :=
| Nil : node_t
| Node (rank : K) (value : S_t) (min : S_t) (depth : d_t)
       (left right : node_t) : node_t.

(** The members of [avl_rmq]. *)
Record avl_rmq : Type := mk_avl_rmq { root : node_t; n_nodes : K }.

(** The constructor [avl_rmq() : root(nullptr)] names no initial value for
    [n_nodes]; [n0] is the content of that member when the object is
    created. *)
Definition avl_rmq_new (n0 : K) : avl_rmq := mk_avl_rmq Nil n0.

(** Edges of a path from the root. *)
Inductive dir : Type := L | R.

(** The subtree reached by following [path] ([Nil] when the path leaves the
    tree). *)
Fixpoint walk (path : list dir) (t : node_t) : node_t :=
  match path, t with
  | [], _ => t
  | _, Nil => Nil
  | L :: path', Node _ _ _ _ l _ => walk path' l
  | R :: path', Node _ _ _ _ _ r => walk path' r
  end.

Definition is_L (d : dir) : bool := match d with L => true | R => false end.

(** The offset b(n) of the node at the end of [path], starting from offset
    [b0] at the root: unchanged along left edges, 1 after any right edge. *)
Definition offset_from (b0 : Z) (path : list dir) : Z :=
  if forallb is_L path then b0 else 1.

Definition offset (path : list dir) : Z := offset_from 0 path.

(** Number of nodes of a subtree. *)
Fixpoint size (t : node_t) : Z :=
  match t with
  | Nil => 0
  | Node _ _ _ _ l r => size l + 1 + size r
  end.

(** Height of a subtree computed from its shape (not from the depth
    fields). *)
Fixpoint height (t : node_t) : Z :=
  match t with
  | Nil => 0
  | Node _ _ _ _ l r => 1 + Z.max (height l) (height r)
  end.

(** In-order list of the values. *)
Fixpoint inorder (t : node_t) : list S_t :=
  match t with
  | Nil => []
  | Node _ v _ _ l r => inorder l ++ v :: inorder r
  end.

(** The tree with the [value] and [min] fields blanked: shape, ranks and
    depths. *)
Fixpoint skeleton (t : node_t) : node_t :=
  match t with
  | Nil => Nil
  | Node r _ _ d l rt => Node r 0 0 d (skeleton l) (skeleton rt)
  end.

(** ** Node helpers *)

(** [get_depth]. *)
Definition get_depth (node : node_t) : d_t :=
  match node with
  | Nil => 0
  | Node _ _ _ depth _ _ => depth
  end.

(** [get_balance]. *)
Definition get_balance (node : node_t) : Z :=
  match node with
  | Nil => 0
  | Node _ _ _ _ l r => get_depth l - get_depth r
  end.

(** The value [node_t::update_min] stores in [min]. *)
Definition min_of (value : S_t) (left right : node_t) : S_t :=
  let m := value in
  let m := match left with Nil => m | Node _ _ lm _ _ _ => Z.min m lm end in
  let m := match right with Nil => m | Node _ _ rm _ _ _ => Z.min m rm end in
  m.

(** [node_t::update_min]. *)
Definition update_min (node : node_t) : node_t :=
  match node with
  | Nil => Nil
  | Node r v _ d l rt => Node r v (min_of v l rt) d l rt
  end.

(** ** Rotations *)

(** [right_rotate(y)]: [x = y->left], [tmp = x->right]. *)
Definition right_rotate (y : node_t) : option node_t :=
  match y with
  | Node y_rank y_value y_min _ (Node x_rank x_value _ _ x_left tmp) y_right =>
      let y_rank' := y_rank - x_rank in
      let x_min' := y_min in
      let y_min' := min_of y_value tmp y_right in
      let y_depth' := Z.max (get_depth tmp) (get_depth y_right) + 1 in
      let y' := Node y_rank' y_value y_min' y_depth' tmp y_right in
      let x_depth' := Z.max (get_depth x_left) (get_depth y') + 1 in
      Some (Node x_rank x_value x_min' x_depth' x_left y')
  | _ => None
  end.

(** [left_rotate(x)]: [y = x->right], [tmp = y->left]. *)
Definition left_rotate (x : node_t) : option node_t :=
  match x with
  | Node x_rank x_value x_min _ x_left (Node y_rank y_value _ _ tmp y_right) =>
      let y_rank' := y_rank + x_rank in
      let y_min' := x_min in
      let x_min' := min_of x_value x_left tmp in
      let x_depth' := Z.max (get_depth x_left) (get_depth tmp) + 1 in
      let x' := Node x_rank x_value x_min' x_depth' x_left tmp in
      let y_depth' := Z.max (get_depth x') (get_depth y_right) + 1 in
      Some (Node y_rank' y_value y_min' y_depth' x' y_right)
  | _ => None
  end.

(** ** Point operations *)

(** [search(node, rank)]: the node found, [Nil] for [nullptr]. *)
Fixpoint search (node : node_t) (rank : K) : node_t :=
  match node with
  | Nil => Nil
  | Node node_rank _ _ _ l r =>
      if rank <? node_rank then search l rank
      else if rank >? node_rank then search r (rank - node_rank)
      else node
  end.

(** [update(node, rank, value)] (protected). *)
Fixpoint update (node : node_t) (rank : K) (value : S_t) : node_t :=
  match node with
  | Nil => Nil
  | Node node_rank v m d l r =>
      if rank <? node_rank then
        update_min (Node node_rank v m d (update l rank value) r)
      else if rank >? node_rank then
        update_min (Node node_rank v m d l (update r (rank - node_rank) value))
      else
        update_min (Node node_rank value m d l r)
  end.

(** The tail of [insert(node, rank, value)], from
    [int8_t balance = get_balance(node)] to the end: [node] has its child,
    rank, min and depth already updated, [rank] is the position that was
    inserted. *)
Definition rebalance (node : node_t) (rank : K) : option node_t :=
  match node with
  | Nil => None
  | Node node_rank v m d l r =>
      let balance := get_balance node in
      if balance >? 1 then
        match l with
        | Nil => None
        | Node l_rank _ _ _ _ _ =>
            l' ← (if rank >? l_rank then left_rotate l else Some l);
            right_rotate (Node node_rank v m d l' r)
        end
      else if balance <? -1 then
        let rank := rank - node_rank in
        match r with
        | Nil => None
        | Node r_rank _ _ _ _ _ =>
            r' ← (if rank <? r_rank then right_rotate r else Some r);
            left_rotate (Node node_rank v m d l r')
        end
      else Some node
  end.

(** [insert(node, rank, value)] (protected). *)
Fixpoint insert (node : node_t) (rank : K) (value : S_t) : option node_t :=
  match node with
  | Nil => Some (Node rank value value 1 Nil Nil)
  | Node node_rank v m d l r =>
      '(node_rank', l', r') ←
        (if rank <=? node_rank then
           l' ← insert l rank value; Some (node_rank + 1, l', r)
         else
           r' ← insert r (rank - node_rank) value; Some (node_rank, l, r'));
      let m' := Z.min m value in
      let d' := Z.max (get_depth l') (get_depth r') + 1 in
      rebalance (Node node_rank' v m' d' l' r') rank
  end.

(** [to_vector(node, vec)] (protected): appends the subtree to [vec]. *)
Fixpoint to_vector_rec (node : node_t) (vec : list S_t) : list S_t :=
  match node with
  | Nil => vec
  | Node _ value _ _ l r => to_vector_rec r (to_vector_rec l vec ++ [value])
  end.

(** ** Public operations, as functions of the object state.
    Mutating operations return the new state; all return [None] where the
    code dereferences [nullptr]. *)

Definition is_null (node : node_t) : bool :=
  match node with Nil => true | _ => false end.

(** [operator[](rank)]. *)
Definition access (rank : K) (t : avl_rmq) : option (S_t * avl_rmq) :=
  if is_null (root t) || (rank >=? n_nodes t) then Some (0, t)
  else
    match search (root t) rank with
    | Nil => None
    | Node _ value _ _ _ _ => Some (value, t)
    end.

(** [insert(rank, value)] (public). *)
Definition insert_op (rank : K) (value : S_t) (t : avl_rmq) : option avl_rmq :=
  root' ← insert (root t) rank value;
  Some (mk_avl_rmq root' (n_nodes t + 1)).

(** [update(rank, value)] (public). *)
Definition update_op (rank : K) (value : S_t) (t : avl_rmq) : avl_rmq :=
  mk_avl_rmq (update (root t) rank value) (n_nodes t).

(** [to_vector()] (public). *)
Definition to_vector (t : avl_rmq) : list S_t := to_vector_rec (root t) [].

(** ** Invariants *)

(** Rank invariant of a subtree whose positions are counted from [b]:
    every node on the left spine has rank [size left + b], every other node
    has rank [size left + 1]. *)
Fixpoint rank_inv (b : Z) (t : node_t) : Prop :=
  match t with
  | Nil => True
  | Node r _ _ _ l rt => r = size l + b ∧ rank_inv b l ∧ rank_inv 1 rt
  end.

(** Balance invariant on the stored depths. *)
Fixpoint avl_inv (t : node_t) : Prop :=
  match t with
  | Nil => True
  | Node _ _ _ d l rt =>
      d = 1 + Z.max (get_depth l) (get_depth rt)
      ∧ -1 ≤ get_depth l - get_depth rt ≤ 1
      ∧ avl_inv l ∧ avl_inv rt
  end.

(** The elements of [l] at the indices in [lo, hi). *)
Definition slice (lo hi : Z) (l : list S_t) : list S_t :=
  take (Z.to_nat hi - Z.to_nat lo)%nat (drop (Z.to_nat lo) l).

(** [l] with [v] placed at index [p]. *)
Definition list_insert_at (p : Z) (v : S_t) (l : list S_t) : list S_t :=
  take (Z.to_nat p) l ++ v :: drop (Z.to_nat p) l.

(** The subtree [t] is higher on the side where position [p] was inserted
    (or is a single node). *)
Definition grew (p : K) (t : node_t) : Prop :=
  get_depth t = 1 ∨
  match t with
  | Nil => False
  | Node r _ _ _ l rt =>
      (p < r ∧ get_depth l = get_depth rt + 1)
      ∨ (r < p ∧ get_depth rt = get_depth l + 1)
  end.

(** The path [insert] follows from [node] to the absent child where it
    creates the leaf, and the rank it passes to the leaf's constructor. *)
Fixpoint insert_descent (node : node_t) (rank : K) : list dir * K :=
  match node with
  | Nil => ([], rank)
  | Node node_rank _ _ _ l r =>
      if rank <=? node_rank then
        let '(path, k) := insert_descent l rank in (L :: path, k)
      else
        let '(path, k) := insert_descent r (rank - node_rank) in (R :: path, k)
  end.

(** An operation of an in-contract call sequence. *)
Inductive op : Type :=
| Insert (rank : K) (value : S_t)
| Update (rank : K) (value : S_t).

(** ** Further members of the header *)

(** [node_t::is_leaf()], called through a node pointer. *)
Definition is_leaf (node : node_t) : option bool :=
  match node with
  | Nil => None
  | Node _ _ _ _ l r => Some (is_null l && is_null r)
  end.

(** [in_range_unsigned<T>(x)], the type [T] given by its
    [numeric_limits<T>::min()] and [numeric_limits<T>::max()]. *)
Definition in_range_unsigned (T_min T_max : Z) (x : Z) : bool :=
  x - T_min <=? T_max - T_min.

Definition UINT8_MAX : Z := 255.
Definition UINT16_MAX : Z := 65535.
Definition UINT32_MAX : Z := 4294967295.
Definition UINT64_MAX : Z := 18446744073709551615.

(** The typedef [d_t], as the largest value of the type the ladder of
    [std::conditional] selects for a key type of [sizeof_K] bytes. *)
Definition d_t_max (sizeof_K : Z) : Z :=
  if in_range_unsigned 0 UINT8_MAX (8 * sizeof_K) then UINT8_MAX
  else if in_range_unsigned 0 UINT16_MAX (8 * sizeof_K) then UINT16_MAX
  else if in_range_unsigned 0 UINT32_MAX (8 * sizeof_K) then UINT32_MAX
  else UINT64_MAX.

(** The [min] and [depth] fields of a node are what [update_min] and the
    depth assignment of the rotations would store. *)
Definition cached_ok (node : node_t) : Prop :=
  match node with
  | Nil => True
  | Node _ v m d l r =>
      m = min_of v l r ∧ d = Z.max (get_depth l) (get_depth r) + 1
  end.

(** Rank invariant of a subtree counted from [b] whose last element sits
    [g] positions too far: the shape [insert] leaves when it is called with
    a position past the end. *)
Fixpoint gap_inv (b g : Z) (t : node_t) : Prop :=
  match t with
  | Nil => False
  | Node r _ _ _ l rt =>
      rank_inv b l
      ∧ ((rt = Nil ∧ r = size l + b + g)
         ∨ (r = size l + b ∧ gap_inv 1 g rt))
  end.

(** ** The test driver's data ([test/avl_rmq_test.cpp], [avl_rmq<int,int>]) *)

Definition INT_MAX : Z := 2147483647.

Definition freq : list Z := [2; 1; 1; 3; 2; 3; 4; 5; 6; 7; 8; 9].

(** [for (i = 0; i < n; ++i) avl.insert(i, freq[i])]. *)
Fixpoint insert_all (i : Z) (vs : list Z) (t : avl_rmq) : option avl_rmq :=
  match vs with
  | [] => Some t
  | v :: vs' => t' ← insert_op i v t; insert_all (i + 1) vs' t'
  end.

(** The same loop as a call sequence. *)
Fixpoint insert_all_ops (i : Z) (vs : list Z) : list op :=
  match vs with
  | [] => []
  | v :: vs' => Insert i v :: insert_all_ops (i + 1) vs'
  end.

(** The tree after the loop of the driver. *)
Definition seed_tree : avl_rmq :=
  Eval vm_compute in default (avl_rmq_new 0) (insert_all 0 freq (avl_rmq_new 0)).

(** * Definitions that depend on the value type *)

Section AvlRmq.

(** [std::numeric_limits<S>::max()]. *)
Variable S_max : S_t.

(** [get_min]. *)
Definition get_min (node : node_t) : S_t :=
  match node with
  | Nil => S_max
  | Node _ _ m _ _ _ => m
  end.

(** [min_range(node, left, right, include_right)]. *)
Fixpoint min_range (node : node_t) (left right : K) (include_right : bool)
  : S_t :=
  match node with
  | Nil => S_max
  | Node node_rank value _ _ l r =>
      if left =? right then S_max
      else if node_rank >=? right then min_range l left right false
      else if node_rank <? left then
        min_range r (left - node_rank) (right - node_rank) false
      else
        let m := value in
        let m := if include_right then Z.min m (get_min r) else m in
        let m := if left =? 0 then Z.min m (get_min l)
                 else Z.min m (min_range l left node_rank true) in
        Z.min m (min_range r 0 (right - node_rank) false)
  end.

(** [operator()(left, right)]. *)
Definition range_min (left right : K) (t : avl_rmq) : S_t * avl_rmq :=
  if (left =? 0) && (right >? n_nodes t) then (get_min (root t), t)
  else (min_range (root t) left right (right >? n_nodes t), t).

(** Minimum invariant: the cached minimum of every node, over values of
    type [S]. *)
Fixpoint min_inv (t : node_t) : Prop :=
  match t with
  | Nil => True
  | Node _ v m _ l rt =>
      v ≤ S_max ∧ m = Z.min v (Z.min (get_min l) (get_min rt))
      ∧ min_inv l ∧ min_inv rt
  end.

(** Minimum of a list of values, [S_max] for the empty list. *)
Definition list_min (l : list S_t) : S_t := foldr Z.min S_max l.

(** Minimum of the elements of [l] whose positions, counted from [pos], lie
    in the interval [lo, hi). *)
Fixpoint seg_min (l : list S_t) (pos lo hi : Z) : S_t :=
  match l with
  | [] => S_max
  | x :: l' =>
      if (lo <=? pos) && (pos <? hi) then Z.min x (seg_min l' (pos + 1) lo hi)
      else seg_min l' (pos + 1) lo hi
  end.

(** The states of an object built by the constructor with [n_nodes] starting
    at zero, followed by in-contract [insert] and [update] calls. *)
Inductive reachable : avl_rmq → Prop :=
| reach_new : reachable (avl_rmq_new 0)
| reach_insert t p v t' :
    reachable t → 0 ≤ p ≤ n_nodes t → v ≤ S_max →
    insert_op p v t = Some t' → reachable t'
| reach_update t p v :
    reachable t → 0 ≤ p < n_nodes t → v ≤ S_max →
    reachable (update_op p v t).

(** The invariant of the whole object. *)
Definition state_inv (t : avl_rmq) : Prop :=
  rank_inv 0 (root t) ∧ min_inv (root t) ∧ avl_inv (root t)
  ∧ n_nodes t = size (root t).

(** Runs a call sequence, checking the contract of each call:
    [0 <= rank <= n_nodes] for [insert], [0 <= rank < n_nodes] for [update],
    and a value of type [S]. *)
Fixpoint run_ops (ops : list op) (t : avl_rmq) : option avl_rmq :=
  match ops with
  | [] => Some t
  | Insert p v :: ops' =>
      if (0 <=? p) && (p <=? n_nodes t) && (v <=? S_max) then
        t' ← insert_op p v t; run_ops ops' t'
      else None
  | Update p v :: ops' =>
      if (0 <=? p) && (p <? n_nodes t) && (v <=? S_max) then
        run_ops ops' (update_op p v t)
      else None
  end.

(** * Proofs *)

(** One step of case analysis on a comparison of keys in the goal. *)
Ltac key_case :=
  match goal with
  | |- context [?a >? ?b] => rewrite (Z.gtb_ltb a b)
  | |- context [?a >=? ?b] => rewrite (Z.geb_leb a b)
  | |- context [?a <? ?b] => destruct (Z.ltb_spec a b)
  | |- context [?a <=? ?b] => destruct (Z.leb_spec a b)
  | |- context [?a =? ?b] => destruct (Z.eqb_spec a b)
  end.

(** ** Basic facts *)

Lemma size_nonneg t : 0 ≤ size t.
Proof. induction t; simpl; lia. Qed.

Lemma size_inorder t : size t = Z.of_nat (length (inorder t)).
Proof.
  induction t as [|r v m d l IHl rt IHr]; simpl; [done|].
  rewrite length_app. simpl. lia.
Qed.

Lemma to_vector_rec_inorder t vec : to_vector_rec t vec = vec ++ inorder t.
Proof.
  revert vec. induction t as [|r v m d l IHl rt IHr]; intros vec; simpl.
  - by rewrite app_nil_r.
  - rewrite IHr, IHl. by rewrite <- !app_assoc.
Qed.

Lemma to_vector_inorder t : to_vector t = inorder (root t).
Proof. unfold to_vector. by rewrite to_vector_rec_inorder. Qed.

Lemma avl_inv_depth_nonneg t : avl_inv t → 0 ≤ get_depth t.
Proof.
  induction t as [|r v m d l IHl rt IHr]; simpl; [lia|].
  intros (-> & _ & Hl & Hr). specialize (IHl Hl). lia.
Qed.

Lemma avl_inv_depth_pos r v m d l rt :
  avl_inv (Node r v m d l rt) → 1 ≤ d.
Proof.
  simpl. intros (-> & _ & Hl & Hr).
  pose proof (avl_inv_depth_nonneg _ Hl). lia.
Qed.

Lemma avl_inv_height t : avl_inv t → get_depth t = height t.
Proof.
  induction t as [|r v m d l IHl rt IHr]; simpl; [done|].
  intros (-> & _ & Hl & Hr). rewrite <- IHl, <- IHr by done. done.
Qed.

Lemma min_inv_le t : min_inv t → get_min t ≤ S_max.
Proof. destruct t; simpl; [lia|]. intros (? & -> & _). lia. Qed.

Lemma min_of_eq v l rt :
  v ≤ S_max → min_inv l → min_inv rt →
  min_of v l rt = Z.min v (Z.min (get_min l) (get_min rt)).
Proof.
  intros Hv Hl Hr. pose proof (min_inv_le _ Hl). pose proof (min_inv_le _ Hr).
  unfold min_of. destruct l, rt; simpl in *; lia.
Qed.

Lemma list_min_le l : list_min l ≤ S_max.
Proof. unfold list_min. induction l; simpl; lia. Qed.

Lemma list_min_app l1 l2 : list_min (l1 ++ l2) = Z.min (list_min l1) (list_min l2).
Proof.
  unfold list_min. induction l1 as [|x xs IH]; simpl.
  - pose proof (list_min_le l2). unfold list_min in *. lia.
  - rewrite IH. lia.
Qed.

Lemma min_inv_list_min t : min_inv t → get_min t = list_min (inorder t).
Proof.
  induction t as [|r v m d l IHl rt IHr]; simpl; [done|].
  intros (Hv & -> & Hl & Hr). rewrite IHl, IHr by done.
  rewrite list_min_app. unfold list_min at 4. simpl. fold (list_min (inorder rt)). lia.
Qed.

Lemma list_min_lower l x : x ∈ l → list_min l ≤ x.
Proof.
  unfold list_min. induction 1; simpl; lia.
Qed.

Lemma list_min_elem l :
  l ≠ [] → Forall (λ x, x ≤ S_max) l → list_min l ∈ l.
Proof.
  unfold list_min. induction l as [|x xs IH]; [done|].
  intros _ Hall. apply Forall_cons in Hall as [Hx Hxs]. simpl.
  destruct xs as [|y ys].
  - simpl. replace (Z.min x S_max) with x by lia. left.
  - specialize (IH ltac:(done) Hxs).
    destruct (Z.min_spec x (foldr Z.min S_max (y :: ys))) as [[_ ->]|[_ ->]].
    + left.
    + right. exact IH.
Qed.

Lemma min_inv_Forall t : min_inv t → Forall (λ x, x ≤ S_max) (inorder t).
Proof.
  induction t as [|r v m d l IHl rt IHr]; simpl; [constructor|].
  intros (Hv & _ & Hl & Hr). apply Forall_app. split; [auto|].
  constructor; auto.
Qed.

(** ** Rotations preserve the sequence and the invariants *)

Lemma right_rotate_inorder y x : right_rotate y = Some x → inorder x = inorder y.
Proof.
  destruct y as [|yr yv ym yd [|xr xv xm xd xl tmp] yrt]; simpl; try done.
  intros [= <-]. simpl. by rewrite <- app_assoc.
Qed.

Lemma left_rotate_inorder x y : left_rotate x = Some y → inorder y = inorder x.
Proof.
  destruct x as [|xr xv xm xd xl [|yr yv ym yd tmp yrt]]; simpl; try done.
  intros [= <-]. simpl. by rewrite <- app_assoc.
Qed.

Lemma right_rotate_rank b y x :
  right_rotate y = Some x → rank_inv b y → rank_inv b x.
Proof.
  destruct y as [|yr yv ym yd [|xr xv xm xd xl tmp] yrt]; simpl; try done.
  intros [= <-]. simpl. intros (-> & (-> & Hxl & Htmp) & Hyr).
  repeat split; try done. lia.
Qed.

Lemma left_rotate_rank b x y :
  left_rotate x = Some y → rank_inv b x → rank_inv b y.
Proof.
  destruct x as [|xr xv xm xd xl [|yr yv ym yd tmp yrt]]; simpl; try done.
  intros [= <-]. simpl. intros (-> & Hxl & (-> & Htmp & Hyr)).
  repeat split; try done. lia.
Qed.

Lemma right_rotate_min y x :
  right_rotate y = Some x → min_inv y → min_inv x ∧ get_min x = get_min y.
Proof.
  destruct y as [|yr yv ym yd [|xr xv xm xd xl tmp] yrt]; simpl; try done.
  intros [= <-]. simpl. intros (Hyv & -> & (Hxv & -> & Hxl & Htmp) & Hyr).
  rewrite min_of_eq by done. repeat split; try done. lia.
Qed.

Lemma left_rotate_min x y :
  left_rotate x = Some y → min_inv x → min_inv y ∧ get_min y = get_min x.
Proof.
  destruct x as [|xr xv xm xd xl [|yr yv ym yd tmp yrt]]; simpl; try done.
  intros [= <-]. simpl. intros (Hxv & -> & Hxl & (Hyv & -> & Htmp & Hyr)).
  rewrite min_of_eq by done. repeat split; try done. lia.
Qed.

(** Case analysis of [rebalance]: no rotation, a single or a double rotation
    to the right, a single or a double rotation to the left. *)
Lemma rebalance_cases r v m d l rt p t' :
  rebalance (Node r v m d l rt) p = Some t' →
  (t' = Node r v m d l rt)
  ∨ (∃ l', (l' = l ∨ left_rotate l = Some l')
           ∧ right_rotate (Node r v m d l' rt) = Some t')
  ∨ (∃ rt', (rt' = rt ∨ right_rotate rt = Some rt')
            ∧ left_rotate (Node r v m d l rt') = Some t').
Proof.
  unfold rebalance. simpl get_balance.
  destruct (get_depth l - get_depth rt >? 1).
  - destruct l as [|lr lv lm ld ll lrt]; [done|].
    destruct (p >? lr).
    + destruct (left_rotate (Node lr lv lm ld ll lrt)) as [l'|] eqn:E; [|done].
      intros H. right; left. exists l'. split; [by right|exact H].
    + intros H. right; left. eexists. split; [by left|exact H].
  - destruct (get_depth l - get_depth rt <? -1).
    + destruct rt as [|rr rv rm rd rl rrt]; [done|].
      destruct (p - r <? rr).
      * destruct (right_rotate (Node rr rv rm rd rl rrt)) as [rt'|] eqn:E; [|done].
        intros H. right; right. exists rt'. split; [by right|exact H].
      * intros H. right; right. eexists. split; [by left|exact H].
    + intros [= <-]. by left.
Qed.

Lemma rebalance_inorder n p t' : rebalance n p = Some t' → inorder t' = inorder n.
Proof.
  destruct n as [|r v m d l rt]; [done|]. intros H.
  apply rebalance_cases in H as [->|[(l' & Hl & H)|(rt' & Hr & H)]]; [done|..].
  - apply right_rotate_inorder in H. rewrite H. simpl.
    destruct Hl as [->|Hl]; [done|]. by rewrite (left_rotate_inorder _ _ Hl).
  - apply left_rotate_inorder in H. rewrite H. simpl.
    destruct Hr as [->|Hr]; [done|]. by rewrite (right_rotate_inorder _ _ Hr).
Qed.

Lemma rotate_size x y : inorder x = inorder y → size x = size y.
Proof. intros H. by rewrite !size_inorder, H. Qed.

Lemma rebalance_rank b n p t' :
  rebalance n p = Some t' → rank_inv b n → rank_inv b t'.
Proof.
  destruct n as [|r v m d l rt]; [done|]. intros H Hinv.
  apply rebalance_cases in H as [->|[(l' & Hl & H)|(rt' & Hr & H)]]; [done|..].
  - apply (right_rotate_rank b) in H; [done|].
    destruct Hl as [->|Hl]; [done|].
    simpl in *. destruct Hinv as (-> & Hl' & Hr').
    rewrite (rotate_size _ _ (left_rotate_inorder _ _ Hl)).
    eauto using left_rotate_rank.
  - apply (left_rotate_rank b) in H; [done|].
    destruct Hr as [->|Hr]; [done|].
    simpl in *. destruct Hinv as (-> & Hl' & Hr').
    eauto using right_rotate_rank.
Qed.

Lemma rebalance_min n p t' :
  rebalance n p = Some t' → min_inv n → min_inv t' ∧ get_min t' = get_min n.
Proof.
  destruct n as [|r v m d l rt]; [done|]. intros H Hinv.
  apply rebalance_cases in H as [->|[(l' & Hl & H)|(rt' & Hr & H)]]; [done|..].
  - apply right_rotate_min in H; [done|].
    destruct Hl as [->|Hl]; [done|].
    simpl in *. destruct Hinv as (Hv & -> & Hl' & Hr').
    destruct (left_rotate_min _ _ Hl Hl') as [? ->]. done.
  - apply left_rotate_min in H; [done|].
    destruct Hr as [->|Hr]; [done|].
    simpl in *. destruct Hinv as (Hv & -> & Hl' & Hr').
    destruct (right_rotate_min _ _ Hr Hr') as [? ->]. done.
Qed.

(** ** Insertion *)

Lemma insert_node_inv r v m d l rt p x t' :
  insert (Node r v m d l rt) p x = Some t' →
  (p ≤ r ∧ ∃ l', insert l p x = Some l' ∧
     rebalance (Node (r + 1) v (Z.min m x)
                     (Z.max (get_depth l') (get_depth rt) + 1) l' rt) p = Some t')
  ∨ (r < p ∧ ∃ rt', insert rt (p - r) x = Some rt' ∧
     rebalance (Node r v (Z.min m x)
                     (Z.max (get_depth l) (get_depth rt') + 1) l rt') p = Some t').
Proof.
  simpl. key_case.
  - destruct (insert l p x) as [l'|]; [|done]. simpl. intros Hreb.
    left. split; [done|]. by exists l'.
  - destruct (insert rt (p - r) x) as [rt'|]; [|done]. simpl. intros Hreb.
    right. split; [done|]. by exists rt'.
Qed.

Lemma insert_node_l r v m d l rt p x l' :
  p ≤ r → insert l p x = Some l' →
  insert (Node r v m d l rt) p x
  = rebalance (Node (r + 1) v (Z.min m x)
                    (Z.max (get_depth l') (get_depth rt) + 1) l' rt) p.
Proof.
  intros Hp Hins. change (insert (Node r v m d l rt) p x) with
    ('(node_rank', l', r') ←
        (if p <=? r then
           l' ← insert l p x; Some (r + 1, l', rt)
         else
           r' ← insert rt (p - r) x; Some (r, l, r'));
      rebalance (Node node_rank' v (Z.min m x)
                      (Z.max (get_depth l') (get_depth r') + 1) l' r') p).
  key_case; [|lia]. by rewrite Hins.
Qed.

Lemma insert_node_r r v m d l rt p x rt' :
  r < p → insert rt (p - r) x = Some rt' →
  insert (Node r v m d l rt) p x
  = rebalance (Node r v (Z.min m x)
                    (Z.max (get_depth l) (get_depth rt') + 1) l rt') p.
Proof.
  intros Hp Hins. change (insert (Node r v m d l rt) p x) with
    ('(node_rank', l', r') ←
        (if p <=? r then
           l' ← insert l p x; Some (r + 1, l', rt)
         else
           r' ← insert rt (p - r) x; Some (r, l, r'));
      rebalance (Node node_rank' v (Z.min m x)
                      (Z.max (get_depth l') (get_depth r') + 1) l' r') p).
  key_case; [lia|]. by rewrite Hins.
Qed.

Lemma list_insert_at_app_l p v (l1 l2 : list S_t) :
  0 ≤ p ≤ Z.of_nat (length l1) →
  list_insert_at p v (l1 ++ l2) = list_insert_at p v l1 ++ l2.
Proof.
  intros Hp. unfold list_insert_at.
  rewrite take_app_le, drop_app_le by lia. by rewrite <- app_assoc.
Qed.

Lemma list_insert_at_app_r p v (l1 l2 : list S_t) :
  Z.of_nat (length l1) ≤ p →
  list_insert_at p v (l1 ++ l2)
  = l1 ++ list_insert_at (p - Z.of_nat (length l1)) v l2.
Proof.
  intros Hp. unfold list_insert_at.
  rewrite take_app_ge, drop_app_ge by lia. rewrite <- app_assoc.
  replace (Z.to_nat (p - Z.of_nat (length l1)))
    with (Z.to_nat p - length l1)%nat by lia. done.
Qed.

Lemma list_insert_at_length p v (l : list S_t) :
  length (list_insert_at p v l) = S (length l).
Proof.
  unfold list_insert_at. rewrite length_app. simpl.
  rewrite length_take, length_drop. lia.
Qed.

(** [insert] places the value at position [p] of the sequence and keeps the
    rank invariant. *)
Lemma insert_rank_inorder t : ∀ b p x t',
  rank_inv b t → b ≤ p ≤ b + size t → insert t p x = Some t' →
  rank_inv b t' ∧ inorder t' = list_insert_at (p - b) x (inorder t).
Proof.
  induction t as [|r v m d l IHl rt IHr]; intros b p x t' Hinv Hp H.
  - simpl in *. injection H as <-. simpl. split; [split; [lia|done]|].
    replace (p - b) with 0 by lia. done.
  - destruct Hinv as (Hr & Hl & Hrt).
    pose proof (size_nonneg l). pose proof (size_nonneg rt).
    simpl in Hp.
    apply insert_node_inv in H as [(Hle & l' & Hins & H)|(Hlt & rt' & Hins & H)].
    + destruct (IHl b p x l' Hl ltac:(lia) Hins) as [Hl' Hio].
      split.
      * apply (rebalance_rank b) in H; [done|]. simpl. repeat split; try done.
        rewrite (size_inorder l'), Hio, list_insert_at_length.
        rewrite Hr, (size_inorder l). lia.
      * rewrite (rebalance_inorder _ _ _ H). simpl. rewrite Hio.
        rewrite list_insert_at_app_l; [done|]. rewrite <- size_inorder. lia.
    + destruct (IHr 1 (p - r) x rt' Hrt ltac:(lia) Hins) as [Hrt' Hio].
      split.
      * apply (rebalance_rank b) in H; [done|]. simpl. repeat split; done.
      * rewrite (rebalance_inorder _ _ _ H). simpl. rewrite Hio.
        rewrite list_insert_at_app_r by (rewrite <- size_inorder; lia).
        f_equal. rewrite <- size_inorder.
        replace (p - b - size l) with (p - r) by lia.
        unfold list_insert_at.
        replace (Z.to_nat (p - r)) with (S (Z.to_nat (p - r - 1))) by lia.
        done.
Qed.

Lemma insert_size t b p x t' :
  rank_inv b t → b ≤ p ≤ b + size t → insert t p x = Some t' →
  size t' = size t + 1.
Proof.
  intros Hinv Hp H.
  destruct (insert_rank_inorder t b p x t' Hinv Hp H) as [_ Hio].
  rewrite !size_inorder, Hio, list_insert_at_length. lia.
Qed.

(** [insert] keeps the minimum invariant. *)
Lemma insert_min t : ∀ p x t',
  min_inv t → x ≤ S_max → insert t p x = Some t' →
  min_inv t' ∧ get_min t' = Z.min (get_min t) x.
Proof.
  induction t as [|r v m d l IHl rt IHr]; intros p x t' Hinv Hx H.
  - simpl in *. injection H as <-. simpl. repeat split; try done; lia.
  - destruct Hinv as (Hv & Hm & Hl & Hrt).
    apply insert_node_inv in H as [(Hle & l' & Hins & H)|(Hlt & rt' & Hins & H)].
    + destruct (IHl p x l' Hl Hx Hins) as [Hl' Hmin].
      apply rebalance_min in H; [simpl in *; done|].
      simpl. repeat split; try done. rewrite Hmin. lia.
    + destruct (IHr (p - r) x rt' Hrt Hx Hins) as [Hrt' Hmin].
      apply rebalance_min in H; [simpl in *; done|].
      simpl. repeat split; try done. rewrite Hmin. lia.
Qed.

(** [rebalance] restores the balance of a node whose children are balanced
    and differ in depth by at most two, the higher child having grown on the
    side of the inserted position. *)
Lemma rebalance_avl r v m l rt p :
  avl_inv l → avl_inv rt →
  -2 ≤ get_depth l - get_depth rt ≤ 2 →
  (get_depth l - get_depth rt = 2 → grew p l) →
  (get_depth l - get_depth rt = -2 → grew (p - r) rt) →
  ∃ t',
    rebalance (Node r v m (Z.max (get_depth l) (get_depth rt) + 1) l rt) p
    = Some t'
    ∧ avl_inv t'
    ∧ ((-1 ≤ get_depth l - get_depth rt ≤ 1
        ∧ t' = Node r v m (Z.max (get_depth l) (get_depth rt) + 1) l rt)
       ∨ (get_depth l - get_depth rt = 2 ∧ get_depth t' = get_depth l)
       ∨ (get_depth l - get_depth rt = -2 ∧ get_depth t' = get_depth rt)).
Proof.
  intros Hl Hrt Hbal Hgl Hgr.
  pose proof (avl_inv_depth_nonneg _ Hl) as Hl0.
  pose proof (avl_inv_depth_nonneg _ Hrt) as Hrt0.
  unfold rebalance. simpl get_balance. key_case. key_case; [|key_case].
  - (* left too high *)
    destruct (Hgl ltac:(lia)) as [?|Hg]; [lia|].
    destruct l as [|lr lv lm ld ll lrt]; [done|].
    simpl in Hl. destruct Hl as (Hld & Hlb & Hll & Hlrt).
    pose proof (avl_inv_depth_nonneg _ Hll).
    pose proof (avl_inv_depth_nonneg _ Hlrt).
    simpl in Hbal, Hl0, Hg |- *.
    key_case. destruct Hg as [[Hp Hd]|[Hp Hd]]; key_case; try lia.
    + (* left-left *)
      simpl in *. eexists. split; [done|]. simpl. split; [|lia].
      repeat split; try done; lia.
    + (* left-right *)
      destruct lrt as [|cr cv cm cd cl crt]; [simpl in *; lia|].
      simpl in Hlrt. destruct Hlrt as (Hcd & Hcb & Hcl & Hcrt).
      simpl in *. eexists. split; [done|]. simpl. split; [|lia].
      repeat split; try done; lia.
  - (* right too high *)
    destruct (Hgr ltac:(lia)) as [?|Hg]; [lia|].
    destruct rt as [|rr rv rm rd rl rrt]; [done|].
    simpl in Hrt. destruct Hrt as (Hrd & Hrb & Hrl & Hrrt).
    pose proof (avl_inv_depth_nonneg _ Hrl).
    pose proof (avl_inv_depth_nonneg _ Hrrt).
    simpl in Hbal, Hrt0, Hg |- *.
    destruct Hg as [[Hp Hd]|[Hp Hd]]; key_case; try lia.
    + (* right-left *)
      destruct rl as [|cr cv cm cd cl crt]; [simpl in *; lia|].
      simpl in Hrl. destruct Hrl as (Hcd & Hcb & Hcl & Hcrt).
      simpl in *. eexists. split; [done|]. simpl. split; [|lia].
      repeat split; try done; lia.
    + (* right-right *)
      simpl in *. eexists. split; [done|]. simpl. split; [|lia].
      repeat split; try done; lia.
  - eexists. split; [done|]. split; [|left; split; [lia|done]].
    simpl. repeat split; try done; lia.
Qed.

(** [insert] returns a balanced tree whose depth is the old one or one
    more. *)
Lemma insert_avl t : ∀ p x,
  avl_inv t →
  ∃ t', insert t p x = Some t' ∧ avl_inv t'
        ∧ (get_depth t' = get_depth t
           ∨ (get_depth t' = get_depth t + 1 ∧ grew p t')).
Proof.
  induction t as [|r v m d l IHl rt IHr]; intros p x Hinv.
  - eexists. split; [done|]. simpl. split; [repeat split; lia|].
    right. split; [done|]. by left.
  - destruct Hinv as (Hd & Hb & Hl & Hrt).
    destruct (Z.le_gt_cases p r).
    + destruct (IHl p x Hl) as (l' & Hins & Hl' & Hh).
      rewrite (insert_node_l _ _ _ _ _ _ _ _ l') by done.
      destruct (rebalance_avl (r + 1) v (Z.min m x) l' rt p Hl' Hrt)
        as (t' & -> & Ht' & Hcase); [lia|intros; destruct Hh; [lia|tauto]|lia|].
      exists t'. split; [done|]. split; [done|].
      destruct Hcase as [[Hb' ->]|[[Hb' Hd']|[Hb' Hd']]]; simpl in *; [|lia..].
      destruct Hh as [Hh|[Hh Hg]]; [lia|].
      destruct (Z.le_gt_cases (get_depth rt) (get_depth l)); [|lia].
      right. split; [lia|]. right. left. lia.
    + destruct (IHr (p - r) x Hrt) as (rt' & Hins & Hrt' & Hh).
      rewrite (insert_node_r _ _ _ _ _ _ _ _ rt') by done.
      destruct (rebalance_avl r v (Z.min m x) l rt' p Hl Hrt')
        as (t' & -> & Ht' & Hcase); [lia|lia|intros; destruct Hh; [lia|tauto]|].
      exists t'. split; [done|]. split; [done|].
      destruct Hcase as [[Hb' ->]|[[Hb' Hd']|[Hb' Hd']]]; simpl in *; [|lia..].
      destruct Hh as [Hh|[Hh Hg]]; [lia|].
      destruct (Z.le_gt_cases (get_depth l) (get_depth rt)); [|lia].
      right. split; [lia|]. right. right. lia.
Qed.

(** ** Search and update *)

Lemma skeleton_size t : size (skeleton t) = size t.
Proof. induction t; simpl; lia. Qed.

Lemma skeleton_depth t : get_depth (skeleton t) = get_depth t.
Proof. by destruct t. Qed.

Lemma skeleton_rank_inv b t : rank_inv b (skeleton t) ↔ rank_inv b t.
Proof.
  revert b. induction t as [|r v m d l IHl rt IHr]; intros b; simpl; [done|].
  rewrite skeleton_size, IHl, IHr. done.
Qed.

Lemma skeleton_avl_inv t : avl_inv (skeleton t) ↔ avl_inv t.
Proof.
  induction t as [|r v m d l IHl rt IHr]; simpl; [done|].
  rewrite !skeleton_depth, IHl, IHr. done.
Qed.

(** [update] changes no rank, no depth and no link. *)
Lemma update_skeleton t : ∀ p x, skeleton (update t p x) = skeleton t.
Proof.
  induction t as [|r v m d l IHl rt IHr]; intros p x; simpl; [done|].
  repeat key_case; simpl; by rewrite ?IHl, ?IHr.
Qed.

Lemma update_min_inv t : ∀ p x,
  min_inv t → x ≤ S_max → min_inv (update t p x).
Proof.
  induction t as [|r v m d l IHl rt IHr]; intros p x Hinv Hx; simpl; [done|].
  destruct Hinv as (Hv & Hm & Hl & Hrt).
  repeat key_case; simpl; rewrite min_of_eq by auto; auto.
Qed.

(** [search] finds the node that holds the element at position [p]. *)
Lemma search_spec t : ∀ b p,
  rank_inv b t → b ≤ p < b + size t →
  ∃ r v m d l rt, search t p = Node r v m d l rt
                  ∧ inorder t !! Z.to_nat (p - b) = Some v.
Proof.
  induction t as [|r v m d l IHl rt IHr]; intros b p Hinv Hp; simpl in *; [lia|].
  destruct Hinv as (Hr & Hl & Hrt).
  pose proof (size_nonneg l). pose proof (size_nonneg rt).
  repeat key_case.
  - destruct (IHl b p Hl ltac:(lia)) as (r' & v' & m' & d' & l' & rt' & -> & Hv).
    exists r', v', m', d', l', rt'. split; [done|].
    rewrite lookup_app_l; [done|]. apply lookup_lt_Some in Hv. lia.
  - destruct (IHr 1 (p - r) Hrt ltac:(lia))
      as (r' & v' & m' & d' & l' & rt' & -> & Hv).
    exists r', v', m', d', l', rt'. split; [done|].
    rewrite lookup_app_r by (rewrite size_inorder in Hr; lia).
    rewrite size_inorder in Hr.
    replace (Z.to_nat (p - b) - length (inorder l))%nat
      with (S (Z.to_nat (p - r - 1))) by lia.
    done.
  - exists r, v, m, d, l, rt. split; [done|].
    rewrite size_inorder in Hr.
    replace (Z.to_nat (p - b)) with (length (inorder l)) by lia.
    by rewrite list_lookup_middle.
Qed.

(** [update] overwrites the element at position [p]. *)
Lemma update_inorder t : ∀ b p x,
  rank_inv b t → b ≤ p < b + size t →
  inorder (update t p x) = <[Z.to_nat (p - b) := x]> (inorder t).
Proof.
  induction t as [|r v m d l IHl rt IHr]; intros b p x Hinv Hp; simpl in *; [lia|].
  destruct Hinv as (Hr & Hl & Hrt).
  pose proof (size_nonneg l). pose proof (size_nonneg rt).
  pose proof (size_inorder l) as Hsl.
  repeat key_case; simpl.
  - rewrite (IHl b) by (done || lia).
    rewrite insert_app_l by lia. done.
  - rewrite (IHr 1) by (done || lia).
    replace (Z.to_nat (p - b))
      with (length (inorder l) + S (Z.to_nat (p - r - 1)))%nat by lia.
    rewrite insert_app_r. done.
  - replace (Z.to_nat (p - b)) with (length (inorder l) + 0)%nat by lia.
    rewrite insert_app_r. done.
Qed.

(** [update] past the last position changes nothing. *)
Lemma update_out_of_range t : ∀ b p x,
  rank_inv b t → min_inv t → b + size t ≤ p → update t p x = t.
Proof.
  induction t as [|r v m d l IHl rt IHr]; intros b p x Hinv Hmin Hp; simpl in *;
    [done|].
  destruct Hinv as (Hr & Hl & Hrt). destruct Hmin as (Hv & Hm & Hml & Hmr).
  pose proof (size_nonneg l). pose proof (size_nonneg rt).
  repeat key_case; try lia.
  rewrite (IHr 1) by (done || lia). simpl.
  rewrite min_of_eq by done. by rewrite <- Hm.
Qed.

(** ** Range minimum *)

Lemma seg_min_le l : ∀ pos lo hi, seg_min l pos lo hi ≤ S_max.
Proof.
  induction l as [|x xs IH]; intros pos lo hi; simpl; [lia|].
  specialize (IH (pos + 1) lo hi). destruct (_ && _); lia.
Qed.

Lemma seg_min_app l1 l2 : ∀ pos lo hi,
  seg_min (l1 ++ l2) pos lo hi
  = Z.min (seg_min l1 pos lo hi)
          (seg_min l2 (pos + Z.of_nat (length l1)) lo hi).
Proof.
  induction l1 as [|x xs IH]; intros pos lo hi; cbn [app seg_min].
  - simpl. rewrite Z.add_0_r. pose proof (seg_min_le l2 pos lo hi). lia.
  - rewrite IH. change (length (x :: xs)) with (S (length xs)).
    rewrite Nat2Z.inj_succ.
    replace (pos + Z.succ (Z.of_nat (length xs)))
      with (pos + 1 + Z.of_nat (length xs)) by lia.
    destruct (_ && _); lia.
Qed.

Lemma seg_min_out_hi l : ∀ pos lo hi, hi ≤ pos → seg_min l pos lo hi = S_max.
Proof.
  induction l as [|x xs IH]; intros pos lo hi Hp; simpl; [done|].
  rewrite IH by lia. repeat key_case; simpl; try done; lia.
Qed.

Lemma seg_min_out_lo l : ∀ pos lo hi,
  pos + Z.of_nat (length l) ≤ lo → seg_min l pos lo hi = S_max.
Proof.
  induction l as [|x xs IH]; intros pos lo hi Hp; simpl in *; [done|].
  rewrite IH by lia. repeat key_case; simpl; try done; lia.
Qed.

Lemma seg_min_all l : ∀ pos lo hi,
  lo ≤ pos → pos + Z.of_nat (length l) ≤ hi →
  seg_min l pos lo hi = list_min l.
Proof.
  unfold list_min.
  induction l as [|x xs IH]; intros pos lo hi Hlo Hhi; simpl in *; [done|].
  rewrite IH by lia. repeat key_case; simpl; try done; lia.
Qed.

Lemma seg_min_shift k l : ∀ pos lo hi,
  seg_min l (pos + k) (lo + k) (hi + k) = seg_min l pos lo hi.
Proof.
  induction l as [|x xs IH]; intros pos lo hi; simpl; [done|].
  replace (pos + k + 1) with (pos + 1 + k) by lia. rewrite IH.
  repeat key_case; simpl; try done; lia.
Qed.

Lemma seg_min_lo_irrel l : ∀ pos lo lo' hi,
  lo ≤ pos → lo' ≤ pos → seg_min l pos lo hi = seg_min l pos lo' hi.
Proof.
  induction l as [|x xs IH]; intros pos lo lo' hi Hlo Hlo'; simpl; [done|].
  rewrite (IH (pos + 1) lo lo') by lia.
  repeat key_case; simpl; try done; lia.
Qed.

Lemma seg_min_hi_irrel l : ∀ pos lo hi hi',
  pos + Z.of_nat (length l) ≤ hi → pos + Z.of_nat (length l) ≤ hi' →
  seg_min l pos lo hi = seg_min l pos lo hi'.
Proof.
  induction l as [|x xs IH]; intros pos lo hi hi' Hhi Hhi'; simpl in *; [done|].
  rewrite (IH (pos + 1) lo hi hi') by lia.
  repeat key_case; simpl; try done; lia.
Qed.

(** [seg_min] is the minimum of a slice. *)
Lemma seg_min_slice l : ∀ pos lo hi,
  seg_min l pos lo hi = list_min (slice (lo - pos) (hi - pos) l).
Proof.
  unfold list_min, slice.
  induction l as [|x xs IH]; intros pos lo hi; simpl.
  - by rewrite drop_nil, take_nil.
  - rewrite IH.
    destruct (Z.leb_spec lo pos) as [Hlo|Hlo];
      destruct (Z.ltb_spec pos hi) as [Hhi|Hhi]; simpl.
    + replace (Z.to_nat (lo - pos)) with 0%nat by lia.
      replace (Z.to_nat (lo - (pos + 1))) with 0%nat by lia.
      rewrite !drop_0, !Nat.sub_0_r.
      replace (Z.to_nat (hi - pos)) with (S (Z.to_nat (hi - (pos + 1)))) by lia.
      done.
    + replace (Z.to_nat (hi - pos) - Z.to_nat (lo - pos))%nat with 0%nat by lia.
      replace (Z.to_nat (hi - (pos + 1)) - Z.to_nat (lo - (pos + 1)))%nat
        with 0%nat by lia.
      by rewrite !take_0.
    + replace (Z.to_nat (lo - pos)) with (S (Z.to_nat (lo - (pos + 1)))) by lia.
      simpl drop.
      replace (Z.to_nat (hi - pos) - S (Z.to_nat (lo - (pos + 1))))%nat
        with (Z.to_nat (hi - (pos + 1)) - Z.to_nat (lo - (pos + 1)))%nat
        by lia.
      done.
    + replace (Z.to_nat (hi - pos) - Z.to_nat (lo - pos))%nat with 0%nat by lia.
      replace (Z.to_nat (hi - (pos + 1)) - Z.to_nat (lo - (pos + 1)))%nat
        with 0%nat by lia.
      by rewrite !take_0.
Qed.

Lemma seg_min_empty l : ∀ pos lo hi, hi ≤ lo → seg_min l pos lo hi = S_max.
Proof.
  induction l as [|x xs IH]; intros pos lo hi Hp; simpl; [done|].
  rewrite IH by lia. repeat key_case; simpl; try done; lia.
Qed.

(** [min_range] on a subtree whose positions are counted from [b] is the
    minimum of the elements at the positions in [left, right), provided
    [include_right] is only set when the interval reaches the end of the
    subtree. *)
Lemma min_range_spec t : ∀ b lo hi inc,
  rank_inv b t → min_inv t → 0 ≤ b →
  (inc = true → b + size t ≤ hi) →
  min_range t lo hi inc = seg_min (inorder t) b lo hi.
Proof.
  induction t as [|r v m d l IHl rt IHr];
    intros b lo hi inc Hinv Hmin Hb Hinc; [done|].
  destruct Hinv as (Hr & Hl & Hrt). destruct Hmin as (Hv & Hm & Hml & Hmr).
  pose proof (size_nonneg l). pose proof (size_nonneg rt).
  pose proof (size_inorder l) as Hsl. pose proof (size_inorder rt) as Hsr.
  cbn [inorder]. rewrite seg_min_app. cbn [seg_min min_range].
  pose proof (seg_min_le (inorder l) b lo hi) as Hle.
  pose proof (seg_min_le (inorder rt) (r + 1) lo hi) as Hre.
  replace (b + Z.of_nat (length (inorder l))) with r by lia.
  destruct (Z.eqb_spec lo hi) as [Heq|Hne].
  { rewrite !seg_min_empty by lia.
    destruct (Z.leb_spec lo r), (Z.ltb_spec r hi); simpl; lia. }
  rewrite Z.geb_leb. destruct (Z.leb_spec hi r) as [Hhi|Hhi].
  { rewrite (IHl b) by (done || lia).
    rewrite (seg_min_out_hi (inorder rt)) by lia.
    destruct (Z.leb_spec lo r), (Z.ltb_spec r hi); simpl; lia. }
  destruct (Z.ltb_spec r lo) as [Hlo'|Hlo'].
  { rewrite (IHr 1) by (done || lia).
    rewrite (seg_min_out_lo (inorder l)) by lia.
    rewrite <- (seg_min_shift r).
    replace (1 + r) with (r + 1) by lia.
    replace (lo - r + r) with lo by lia. replace (hi - r + r) with hi by lia.
    destruct (Z.leb_spec lo r), (Z.ltb_spec r hi); simpl; lia. }
  destruct (Z.leb_spec lo r); [|lia]. destruct (Z.ltb_spec r hi); [|lia].
  simpl andb. cbv iota.
  (* the part of the interval to the right of the node *)
  rewrite (IHr 1 0 (hi - r) false) by (done || lia).
  rewrite <- (seg_min_shift r (inorder rt) 1 0 (hi - r)).
  replace (1 + r) with (r + 1) by lia.
  replace (hi - r + r) with hi by lia.
  rewrite (seg_min_lo_irrel (inorder rt) (r + 1) (0 + r) lo) by lia.
  (* the part to the left *)
  assert ((if lo =? 0 then Z.min (if inc then Z.min v (get_min rt) else v)
                                  (get_min l)
           else Z.min (if inc then Z.min v (get_min rt) else v)
                      (min_range l lo r true))
          = Z.min (if inc then Z.min v (get_min rt) else v)
                  (seg_min (inorder l) b lo hi)) as ->.
  { destruct (Z.eqb_spec lo 0) as [->|Hlo0].
    - rewrite (min_inv_list_min l) by done.
      rewrite (seg_min_all (inorder l) b 0 hi) by lia. done.
    - rewrite (IHl b lo r true) by (done || lia).
      rewrite (seg_min_hi_irrel (inorder l) b lo r hi) by lia. done. }
  destruct inc; [|lia].
  rewrite (min_inv_list_min rt) by done.
  rewrite <- (seg_min_all (inorder rt) (r + 1) lo hi)
    by (specialize (Hinc eq_refl); simpl in Hinc; lia).
  lia.
Qed.

Lemma run_ops_reachable ops : ∀ t t',
  reachable t → run_ops ops t = Some t' → reachable t'.
Proof.
  induction ops as [|[p v|p v] ops IH]; intros t t' Ht; simpl.
  - by intros [= <-].
  - destruct (Z.leb_spec 0 p); [|done]. destruct (Z.leb_spec p (n_nodes t)); [|done].
    destruct (Z.leb_spec v S_max); [|done]. simpl.
    destruct (insert_op p v t) as [t1|] eqn:E; [|done]. simpl.
    apply IH. by apply (reach_insert t p v t1).
  - destruct (Z.leb_spec 0 p); [|done]. destruct (Z.ltb_spec p (n_nodes t)); [|done].
    destruct (Z.leb_spec v S_max); [|done]. simpl.
    apply IH. by apply reach_update.
Qed.

Lemma insert_op_inv p v t t' :
  insert_op p v t = Some t' →
  ∃ root', insert (root t) p v = Some root'
           ∧ t' = mk_avl_rmq root' (n_nodes t + 1).
Proof.
  unfold insert_op. destruct (insert (root t) p v) as [root'|]; [|done].
  simpl. intros [= <-]. by exists root'.
Qed.

Lemma state_inv_insert t p v t' :
  state_inv t → 0 ≤ p ≤ n_nodes t → v ≤ S_max →
  insert_op p v t = Some t' → state_inv t'.
Proof.
  intros (Hrank & Hmin & Havl & Hn) Hp Hv H.
  apply insert_op_inv in H as (root' & Hins & ->).
  rewrite Hn in Hp.
  destruct (insert_rank_inorder _ 0 p v root' Hrank ltac:(lia) Hins) as [Hrank' _].
  destruct (insert_min _ p v root' Hmin Hv Hins) as [Hmin' _].
  destruct (insert_avl (root t) p v Havl) as (t'' & Hins' & Havl' & _).
  assert (t'' = root') as -> by congruence.
  repeat split; try done. simpl.
  rewrite (insert_size _ 0 p v root' Hrank ltac:(lia) Hins). lia.
Qed.

Lemma state_inv_update t p v :
  state_inv t → v ≤ S_max → state_inv (update_op p v t).
Proof.
  intros (Hrank & Hmin & Havl & Hn) Hv. unfold state_inv, update_op. simpl.
  split; [|split; [|split]].
  - apply skeleton_rank_inv. rewrite update_skeleton. by apply skeleton_rank_inv.
  - by apply update_min_inv.
  - apply skeleton_avl_inv. rewrite update_skeleton. by apply skeleton_avl_inv.
  - rewrite <- (skeleton_size (update _ _ _)), update_skeleton, skeleton_size.
    done.
Qed.

(** Every reachable state satisfies the object invariant. *)
Lemma reachable_inv t : reachable t → state_inv t.
Proof.
  induction 1 as [|t p v t' _ IH Hp Hv H|t p v _ IH Hp Hv].
  - repeat split.
  - by apply (state_inv_insert t p v t').
  - by apply state_inv_update.
Qed.

(** In-contract [insert] never dereferences [nullptr]. *)
Lemma insert_op_total t p v :
  state_inv t → ∃ t', insert_op p v t = Some t'.
Proof.
  intros (_ & _ & Havl & _).
  destruct (insert_avl (root t) p v Havl) as (root' & Hins & _).
  unfold insert_op. rewrite Hins. simpl. eauto.
Qed.

(** ** Invariants along a path *)

Lemma offset_from_L b path : offset_from b (L :: path) = offset_from b path.
Proof. done. Qed.

Lemma offset_from_R b path : offset_from b (R :: path) = offset_from 1 path.
Proof. unfold offset_from. simpl. by destruct (forallb is_L path). Qed.

Lemma rank_inv_walk path : ∀ b t,
  rank_inv b t → rank_inv (offset_from b path) (walk path t).
Proof.
  induction path as [|[|] path IH]; intros b t Hinv.
  - done.
  - destruct t as [|r v m d l rt]; [done|]. rewrite offset_from_L.
    simpl. apply IH. apply Hinv.
  - destruct t as [|r v m d l rt]; [done|]. rewrite offset_from_R.
    simpl. apply IH. apply Hinv.
Qed.

Lemma min_inv_walk path : ∀ t, min_inv t → min_inv (walk path t).
Proof.
  induction path as [|[|] path IH]; intros t Hinv; [done|..];
    (destruct t as [|r v m d l rt]; [done|]); simpl; apply IH; apply Hinv.
Qed.

Lemma avl_inv_walk path : ∀ t, avl_inv t → avl_inv (walk path t).
Proof.
  induction path as [|[|] path IH]; intros t Hinv; [done|..];
    (destruct t as [|r v m d l rt]; [done|]); simpl; apply IH; apply Hinv.
Qed.

Lemma insert_descent_spec t : ∀ b p,
  rank_inv b t → b ≤ p ≤ b + size t →
  walk (insert_descent t p).1 t = Nil
  ∧ (insert_descent t p).2 = offset_from b (insert_descent t p).1.
Proof.
  induction t as [|r v m d l IHl rt IHr]; intros b p Hinv Hp; simpl in *.
  - split; [done|]. unfold offset_from. simpl. lia.
  - destruct Hinv as (Hr & Hl & Hrt).
    pose proof (size_nonneg l). pose proof (size_nonneg rt).
    key_case.
    + destruct (IHl b p Hl ltac:(lia)) as [Hw Hk].
      destruct (insert_descent l p) as [path k]. simpl in *.
      by rewrite offset_from_L.
    + destruct (IHr 1 (p - r) Hrt ltac:(lia)) as [Hw Hk].
      destruct (insert_descent rt (p - r)) as [path k]. simpl in *.
      by rewrite offset_from_R.
Qed.

(** * The properties of the structure *)

(** ** Range minimum over the represented sequence *)

Lemma slice_length lo hi (l : list S_t) :
  0 ≤ lo ≤ hi → hi ≤ Z.of_nat (length l) →
  length (slice lo hi l) = Z.to_nat (hi - lo).
Proof.
  intros Hlo Hhi. unfold slice. rewrite length_take, length_drop. lia.
Qed.

Lemma slice_Forall (P : S_t → Prop) lo hi l :
  Forall P l → Forall P (slice lo hi l).
Proof. intros H. unfold slice. by apply Forall_take, Forall_drop. Qed.

(** C1. In every state reached from the empty tree by in-contract inserts
    and updates, and for all [0 <= lo <= hi <= n_nodes], [operator()(lo, hi)]
    returns the minimum of the slice [lo..hi) of [to_vector()] (it is an
    element of the slice and a lower bound of it), and returns
    [numeric_limits<S>::max()] when [lo = hi]; the state is unchanged. *)
Theorem range_min_correct t lo hi :
  reachable t → 0 ≤ lo ≤ hi ≤ n_nodes t →
  range_min lo hi t = (list_min (slice lo hi (to_vector t)), t)
  ∧ (lo = hi → (range_min lo hi t).1 = S_max)
  ∧ (lo < hi →
     (range_min lo hi t).1 ∈ slice lo hi (to_vector t)
     ∧ ∀ x, x ∈ slice lo hi (to_vector t) → (range_min lo hi t).1 ≤ x).
Proof.
  intros Hreach Hb.
  destruct (reachable_inv t Hreach) as (Hrank & Hmin & Havl & Hn).
  assert (range_min lo hi t = (list_min (slice lo hi (to_vector t)), t)) as Heq.
  { unfold range_min. rewrite Z.gtb_ltb.
    destruct (Z.ltb_spec (n_nodes t) hi); [lia|]. rewrite andb_false_r.
    rewrite (min_range_spec _ 0) by (done || lia).
    rewrite seg_min_slice, !Z.sub_0_r, to_vector_inorder. done. }
  rewrite Heq. simpl. split; [done|]. split.
  - intros ->. unfold slice. by rewrite Nat.sub_diag, take_0.
  - intros Hlt. split.
    + apply list_min_elem.
      * intros Hnil.
        pose proof (slice_length lo hi (to_vector t)) as Hlen.
        rewrite Hnil, to_vector_inorder, <- size_inorder in Hlen.
        simpl in Hlen. lia.
      * apply slice_Forall. rewrite to_vector_inorder.
        by apply min_inv_Forall.
    + intros x Hx. by apply list_min_lower.
Qed.

(** ** Insertion shifts the suffix *)

(** C2. In every reachable state and for every [0 <= p <= n_nodes],
    [insert(p, v)] returns, and afterwards [to_vector()] is the old sequence
    with [v] placed at index [p]: index [p] holds [v], the elements before
    [p] keep their index, and every former element at an index [i >= p] is
    at index [i + 1]. *)
Theorem insert_shifts t p v :
  reachable t → 0 ≤ p ≤ n_nodes t →
  ∃ t', insert_op p v t = Some t'
        ∧ to_vector t' = list_insert_at p v (to_vector t)
        ∧ to_vector t' !! Z.to_nat p = Some v
        ∧ (∀ i, (i < Z.to_nat p)%nat → to_vector t' !! i = to_vector t !! i)
        ∧ (∀ i, (Z.to_nat p ≤ i)%nat →
                to_vector t' !! S i = to_vector t !! i)
        ∧ n_nodes t' = n_nodes t + 1.
Proof.
  intros Hreach Hp.
  pose proof (reachable_inv t Hreach) as Hinv.
  destruct (insert_op_total t p v Hinv) as (t' & Hins).
  exists t'. split; [done|].
  destruct Hinv as (Hrank & Hmin & Havl & Hn).
  apply insert_op_inv in Hins as (root' & Hins & ->).
  destruct (insert_rank_inorder _ 0 p v root' Hrank ltac:(lia) Hins) as [_ Hio].
  rewrite Z.sub_0_r in Hio.
  rewrite !to_vector_inorder. simpl root. rewrite Hio.
  assert (length (take (Z.to_nat p) (inorder (root t))) = Z.to_nat p) as Hlen.
  { rewrite length_take. rewrite size_inorder in Hn. lia. }
  unfold list_insert_at. repeat split.
  - apply list_lookup_middle. by rewrite Hlen.
  - intros i Hi. rewrite lookup_app_l by lia. by rewrite lookup_take_lt.
  - intros i Hi. rewrite lookup_app_r by lia. rewrite Hlen.
    replace (S i - Z.to_nat p)%nat with (S (i - Z.to_nat p)) by lia.
    simpl. rewrite lookup_drop. f_equal. lia.
Qed.

(** ** The rank of a node *)

(** The rank of every node of a subtree whose positions are counted from
    [b]. *)
Lemma rank_inv_node b t path r v m d l rt :
  rank_inv b t → walk path t = Node r v m d l rt →
  r = size l + offset_from b path.
Proof.
  intros Hinv Hw. apply (rank_inv_walk path) in Hinv.
  rewrite Hw in Hinv. apply Hinv.
Qed.

(** C3 (amended). In every reachable state, a node reached through at least
    one right edge has rank [1 + size left], and a node on the left spine
    (the root included) has rank [size left]. The leaf [insert] creates at an
    absent child gets as rank the position that reaches that child, with
    value and min [v] and depth 1; for an in-contract position that rank is
    1, except at the end of the left spine, where it is 0. *)
Theorem rank_local t :
  reachable t →
  (∀ path r v m d l rt,
     walk path (root t) = Node r v m d l rt →
     (forallb is_L path = false → r = 1 + size l)
     ∧ (forallb is_L path = true → r = size l))
  ∧ (∀ k v, insert Nil k v = Some (Node k v v 1 Nil Nil))
  ∧ (∀ p, 0 ≤ p ≤ n_nodes t →
       walk (insert_descent (root t) p).1 (root t) = Nil
       ∧ (insert_descent (root t) p).2
         = if forallb is_L (insert_descent (root t) p).1 then 0 else 1).
Proof.
  intros Hreach.
  destruct (reachable_inv t Hreach) as (Hrank & Hmin & Havl & Hn).
  split; [|split].
  - intros path r v m d l rt Hw.
    pose proof (rank_inv_node 0 _ path r v m d l rt Hrank Hw) as Hr.
    unfold offset_from in Hr.
    split; intros Hp; rewrite Hp in Hr; lia.
  - done.
  - intros p Hp. apply (insert_descent_spec _ 0); [done|lia].
Qed.

(** C4. In every reachable state every node has rank [size left + b], where
    [b] is 0 when the path from the root uses only left edges and 1
    otherwise; with it, the descent of [search] reaches the node that holds
    the element at the 0-based position [p] of [to_vector()]. *)
Theorem rank_offset_invariant t :
  reachable t →
  (∀ path r v m d l rt,
     walk path (root t) = Node r v m d l rt → r = size l + offset path)
  ∧ (∀ p, 0 ≤ p < n_nodes t →
       ∃ r v m d l rt, search (root t) p = Node r v m d l rt
                       ∧ to_vector t !! Z.to_nat p = Some v).
Proof.
  intros Hreach.
  destruct (reachable_inv t Hreach) as (Hrank & Hmin & Havl & Hn).
  split.
  - intros path r v m d l rt Hw.
    by apply (rank_inv_node 0 _ path r v m d l rt Hrank).
  - intros p Hp.
    destruct (search_spec _ 0 p Hrank ltac:(lia))
      as (r & v & m & d & l & rt & Hs & Hv).
    rewrite Z.sub_0_r in Hv. rewrite to_vector_inorder. eauto 10.
Qed.

(** ** Balance *)

(** C5. In every reachable state every node satisfies the AVL condition on
    the heights of its children, its depth field is one more than the larger
    depth field of its children, and the depth field is the height of the
    node. *)
Theorem avl_balance t :
  reachable t →
  ∀ path r v m d l rt,
    walk path (root t) = Node r v m d l rt →
    Z.abs (height l - height rt) ≤ 1
    ∧ d = 1 + Z.max (get_depth l) (get_depth rt)
    ∧ d = height (Node r v m d l rt).
Proof.
  intros Hreach path r v m d l rt Hw.
  destruct (reachable_inv t Hreach) as (Hrank & Hmin & Havl & Hn).
  apply (avl_inv_walk path) in Havl. rewrite Hw in Havl.
  pose proof (avl_inv_height _ Havl) as Hh.
  destruct Havl as (Hd & Hb & Hl & Hr).
  rewrite <- (avl_inv_height l), <- (avl_inv_height rt) by done.
  simpl in Hh. repeat split; try done; lia.
Qed.

(** ** Cached minimum *)

(** C6. In every reachable state the [min] field of every node is the
    minimum of its value and of the [min] fields of its children, an absent
    child counting as [numeric_limits<S>::max()]. *)
Theorem min_invariant t :
  reachable t →
  ∀ path r v m d l rt,
    walk path (root t) = Node r v m d l rt →
    m = Z.min v (Z.min (get_min l) (get_min rt)).
Proof.
  intros Hreach path r v m d l rt Hw.
  destruct (reachable_inv t Hreach) as (Hrank & Hmin & Havl & Hn).
  apply (min_inv_walk path) in Hmin. rewrite Hw in Hmin. apply Hmin.
Qed.

(** ** Point access and update *)

(** [operator[]] at an in-range position returns the element of the
    sequence at that position. *)
Lemma access_in_range t q :
  rank_inv 0 (root t) → n_nodes t = size (root t) → 0 ≤ q < n_nodes t →
  ∃ x, access q t = Some (x, t) ∧ inorder (root t) !! Z.to_nat q = Some x.
Proof.
  intros Hrank Hn Hq. unfold access.
  destruct (root t) as [|r0 v0 m0 d0 l0 rt0] eqn:Hroot.
  { simpl in Hn. lia. }
  simpl is_null. rewrite orb_false_l, Z.geb_leb.
  destruct (Z.leb_spec (n_nodes t) q); [lia|].
  destruct (search_spec _ 0 q Hrank ltac:(lia))
    as (r & v & m & d & l & rt & -> & Hv).
  rewrite Z.sub_0_r in Hv. eauto.
Qed.

Lemma access_past_end t q : n_nodes t ≤ q → access q t = Some (0, t).
Proof.
  intros Hq. unfold access. rewrite Z.geb_leb.
  destruct (Z.leb_spec (n_nodes t) q); [|lia]. by rewrite orb_true_r.
Qed.

(** C7. In every reachable state and for every in-range position [p],
    after [update(p, v)] the element at position [p] is [v] ([operator[](p)]
    returns [v]), every other position holds the value it held before, and
    the shape, the ranks and the depths of the tree and [n_nodes] are
    unchanged. *)
Theorem update_correct t p v :
  reachable t → 0 ≤ p < n_nodes t →
  to_vector (update_op p v t) = <[Z.to_nat p := v]> (to_vector t)
  ∧ access p (update_op p v t) = Some (v, update_op p v t)
  ∧ (∀ q, 0 ≤ q → q ≠ p →
       fst <$> access q (update_op p v t) = fst <$> access q t)
  ∧ (∀ i, i ≠ Z.to_nat p →
       to_vector (update_op p v t) !! i = to_vector t !! i)
  ∧ skeleton (root (update_op p v t)) = skeleton (root t)
  ∧ n_nodes (update_op p v t) = n_nodes t.
Proof.
  intros Hreach Hp.
  destruct (reachable_inv t Hreach) as (Hrank & Hmin & Havl & Hn).
  set (t' := update_op p v t).
  assert (rank_inv 0 (root t')) as Hrank'.
  { apply skeleton_rank_inv. simpl. rewrite update_skeleton.
    by apply skeleton_rank_inv. }
  assert (n_nodes t' = size (root t')) as Hn'.
  { simpl. rewrite <- (skeleton_size (update _ _ _)), update_skeleton,
      skeleton_size. done. }
  assert (inorder (root t') = <[Z.to_nat p := v]> (inorder (root t))) as Hio.
  { simpl. rewrite (update_inorder _ 0) by (done || lia).
    by rewrite Z.sub_0_r. }
  assert (Z.to_nat p < length (inorder (root t)))%nat as Hlen.
  { rewrite size_inorder in Hn. lia. }
  rewrite !to_vector_inorder. repeat split.
  - done.
  - destruct (access_in_range t' p Hrank' Hn' Hp) as (x & -> & Hx).
    rewrite Hio, list_lookup_insert_eq in Hx by done. congruence.
  - intros q Hq0 Hqp. destruct (Z.lt_ge_cases q (n_nodes t)) as [Hq|Hq].
    + destruct (access_in_range t' q Hrank' Hn' ltac:(simpl; lia))
        as (x & -> & Hx).
      destruct (access_in_range t q Hrank Hn ltac:(lia)) as (y & -> & Hy).
      rewrite Hio, list_lookup_insert_ne in Hx by lia. simpl. congruence.
    + rewrite (access_past_end t' q), (access_past_end t q) by (simpl; lia).
      done.
  - intros i Hi. rewrite Hio. by apply list_lookup_insert_ne.
  - apply update_skeleton.
Qed.

(** C8. For every position [p >= n_nodes], in every state (reachable or
    not, the empty tree included), [operator[](p)] returns the zero of the
    value type and the state is unchanged. *)
Theorem access_out_of_range t p :
  n_nodes t ≤ p → access p t = Some (0, t).
Proof. apply access_past_end. Qed.

(** C9. In every reachable state and for every position [p >= n_nodes],
    [update(p, v)] leaves the object as it was: the same nodes with the same
    rank, value, min and depth, and the same [n_nodes]. *)
Theorem update_out_of_range_noop t p v :
  reachable t → n_nodes t ≤ p → update_op p v t = t.
Proof.
  intros Hreach Hp.
  destruct (reachable_inv t Hreach) as (Hrank & Hmin & Havl & Hn).
  unfold update_op.
  rewrite (update_out_of_range _ 0) by (done || lia). by destruct t.
Qed.

(** ** Clamping of the right bound *)

(** C10. In every reachable state and for all bounds [lo] and
    [hi > n_nodes], [operator()(lo, hi)] returns what [operator()(lo,
    n_nodes)] returns; for [lo = 0] this is the [min] cached at the root. *)
Theorem range_min_clamped t lo hi :
  reachable t → n_nodes t < hi →
  range_min lo hi t = range_min lo (n_nodes t) t
  ∧ (lo = 0 → range_min lo hi t = (get_min (root t), t)).
Proof.
  intros Hreach Hhi.
  destruct (reachable_inv t Hreach) as (Hrank & Hmin & Havl & Hn).
  pose proof (size_inorder (root t)) as Hlen.
  unfold range_min. rewrite !Z.gtb_ltb, Z.ltb_irrefl, andb_false_r.
  destruct (Z.ltb_spec (n_nodes t) hi); [|lia]. rewrite andb_true_r.
  destruct (Z.eqb_spec lo 0) as [->|Hne].
  - split; [|done].
    rewrite (min_range_spec _ 0) by (done || lia).
    rewrite seg_min_all by lia. by rewrite min_inv_list_min.
  - split; [|done].
    rewrite !(min_range_spec _ 0) by (done || lia).
    f_equal. apply seg_min_hi_irrel; lia.
Qed.

(** * Further properties of the operations *)

(** ** Queries with arbitrary bounds *)

Lemma seg_min_split l : ∀ pos lo mid hi,
  lo ≤ mid ≤ hi →
  seg_min l pos lo hi = Z.min (seg_min l pos lo mid) (seg_min l pos mid hi).
Proof.
  induction l as [|x xs IH]; intros pos lo mid hi Hm; simpl; [lia|].
  rewrite (IH (pos + 1) lo mid hi) by done.
  repeat key_case; simpl; lia.
Qed.

Lemma seg_min_mono l : ∀ pos lo lo' hi hi',
  lo' ≤ lo → hi ≤ hi' → seg_min l pos lo' hi' ≤ seg_min l pos lo hi.
Proof.
  induction l as [|x xs IH]; intros pos lo lo' hi hi' Hlo Hhi; simpl; [lia|].
  pose proof (IH (pos + 1) lo lo' hi hi' Hlo Hhi).
  repeat key_case; simpl; lia.
Qed.

(** [operator()] on a state that satisfies the object invariant, for any
    pair of bounds. *)
Lemma range_min_seg t lo hi :
  state_inv t →
  range_min lo hi t = (seg_min (inorder (root t)) 0 lo hi, t).
Proof.
  intros (Hrank & Hmin & Havl & Hn).
  pose proof (size_inorder (root t)) as Hlen.
  unfold range_min. rewrite Z.gtb_ltb.
  destruct (Z.eqb_spec lo 0) as [->|Hne];
    destruct (Z.ltb_spec (n_nodes t) hi) as [Hhi|Hhi]; simpl andb; cbv iota.
  - rewrite seg_min_all by lia. by rewrite min_inv_list_min.
  - by rewrite (min_range_spec _ 0) by (done || lia).
  - by rewrite (min_range_spec _ 0) by (done || lia).
  - by rewrite (min_range_spec _ 0) by (done || lia).
Qed.

(** X1. In every reachable state and for every [0 <= p < n_nodes],
    [operator[](p)] dereferences no null pointer and returns the element at
    index [p] of [to_vector()], leaving the state unchanged. *)
Theorem access_in_range_correct t p :
  reachable t → 0 ≤ p < n_nodes t →
  ∃ x, to_vector t !! Z.to_nat p = Some x ∧ access p t = Some (x, t).
Proof.
  intros Hreach Hp.
  destruct (reachable_inv t Hreach) as (Hrank & Hmin & Havl & Hn).
  destruct (access_in_range t p Hrank Hn Hp) as (x & Hacc & Hx).
  exists x. by rewrite to_vector_inorder.
Qed.


(** X3. In every reachable state and for any bounds whatsoever (also with
    [hi] past the end, [lo] past the end, or [lo > hi]), [operator()(lo, hi)]
    returns the minimum of the elements of [to_vector()] whose indices lie in
    [lo, hi), [numeric_limits<S>::max()] when there is none. *)
Theorem range_min_any_bounds t lo hi :
  reachable t →
  range_min lo hi t = (list_min (slice lo hi (to_vector t)), t).
Proof.
  intros Hreach. rewrite (range_min_seg t lo hi (reachable_inv t Hreach)).
  by rewrite seg_min_slice, !Z.sub_0_r, to_vector_inorder.
Qed.

(** X4. In every reachable state a query over an interval that holds no
    position of the sequence (inverted or empty, starting at or after the
    end, or ending at or before 0) returns [numeric_limits<S>::max()]. *)
Theorem range_min_empty_interval t lo hi :
  reachable t → hi ≤ lo ∨ n_nodes t ≤ lo ∨ hi ≤ 0 →
  (range_min lo hi t).1 = S_max.
Proof.
  intros Hreach Hcase.
  pose proof (reachable_inv t Hreach) as Hinv.
  rewrite (range_min_seg t lo hi Hinv). simpl.
  destruct Hinv as (Hrank & Hmin & Havl & Hn).
  destruct Hcase as [H|[H|H]].
  - by apply seg_min_empty.
  - apply seg_min_out_lo. rewrite <- size_inorder. lia.
  - apply seg_min_out_hi. lia.
Qed.

(** X5. In every reachable state the query over the whole sequence,
    [operator()(0, n_nodes)], returns the [min] cached at the root, which is
    the minimum of [to_vector()]. *)
Theorem range_min_whole t :
  reachable t →
  range_min 0 (n_nodes t) t = (get_min (root t), t)
  ∧ get_min (root t) = list_min (to_vector t).
Proof.
  intros Hreach.
  pose proof (reachable_inv t Hreach) as Hinv.
  rewrite (range_min_seg t _ _ Hinv).
  destruct Hinv as (Hrank & Hmin & Havl & Hn).
  rewrite seg_min_all by (rewrite <- ?size_inorder; lia).
  rewrite to_vector_inorder, <- min_inv_list_min by done. done.
Qed.

(** X6. In every reachable state the query over the one-position interval
    [p, p+1) returns the element that [operator[](p)] returns. *)
Theorem range_min_single t p :
  reachable t → 0 ≤ p < n_nodes t →
  access p t = Some ((range_min p (p + 1) t).1, t).
Proof.
  intros Hreach Hp.
  pose proof (reachable_inv t Hreach) as Hinv.
  rewrite (range_min_seg t _ _ Hinv).
  destruct Hinv as (Hrank & Hmin & Havl & Hn).
  destruct (access_in_range t p Hrank Hn Hp) as (x & -> & Hx).
  simpl. do 2 f_equal.
  rewrite seg_min_slice, !Z.sub_0_r. unfold slice, list_min.
  replace (Z.to_nat (p + 1) - Z.to_nat p)%nat with 1%nat by lia.
  rewrite (drop_S _ x _ Hx). simpl.
  pose proof (min_inv_Forall _ Hmin) as Hall.
  rewrite Forall_lookup in Hall. specialize (Hall _ _ Hx). simpl in Hall. lia.
Qed.

(** X7. In every reachable state a query splits at any point of its
    interval: for [lo <= mid <= hi], the result over [lo, hi) is the smaller
    of the results over [lo, mid) and [mid, hi). *)
Theorem range_min_split t lo mid hi :
  reachable t → lo ≤ mid ≤ hi →
  (range_min lo hi t).1
  = Z.min (range_min lo mid t).1 (range_min mid hi t).1.
Proof.
  intros Hreach Hm.
  pose proof (reachable_inv t Hreach) as Hinv.
  rewrite !(range_min_seg t _ _ Hinv). simpl. by apply seg_min_split.
Qed.

(** X8. In every reachable state a query over a wider interval returns a
    value that is at most the result over a narrower one. *)
Theorem range_min_monotone t lo lo' hi hi' :
  reachable t → lo' ≤ lo → hi ≤ hi' →
  (range_min lo' hi' t).1 ≤ (range_min lo hi t).1.
Proof.
  intros Hreach Hlo Hhi.
  pose proof (reachable_inv t Hreach) as Hinv.
  rewrite !(range_min_seg t _ _ Hinv). simpl. by apply seg_min_mono.
Qed.

(** ** Queries after a mutation *)

Lemma seg_min_list_update_out l : ∀ pos (i : nat) v lo hi,
  ¬ (lo ≤ pos + Z.of_nat i < hi) →
  seg_min (<[i := v]> l) pos lo hi = seg_min l pos lo hi.
Proof.
  induction l as [|x xs IH]; intros pos i v lo hi Hout; [done|].
  destruct i as [|i]; simpl.
  - repeat key_case; simpl; try done; lia.
  - rewrite IH by lia. done.
Qed.

Lemma seg_min_at l : ∀ pos (i : nat) x,
  l !! i = Some x → x ≤ S_max →
  seg_min l (pos - Z.of_nat i) pos (pos + 1) = x.
Proof.
  induction l as [|y ys IH]; intros pos i x Hx Hle; [done|].
  destruct i as [|i]; simpl in *.
  - injection Hx as ->. rewrite seg_min_out_hi by lia.
    repeat key_case; simpl; lia.
  - replace (pos - Z.of_nat (S i) + 1) with (pos - Z.of_nat i) by lia.
    rewrite (IH pos i x Hx Hle). repeat key_case; simpl; try done; lia.
Qed.

(** X9. In every reachable state and for an in-contract [update(p, v)]: a
    query whose interval does not contain [p] returns afterwards what it
    returned before, and a query over [lo, hi) with [lo <= p < hi] returns
    the smallest of [v] and the former results over [lo, p) and
    [p+1, hi). *)
Theorem update_then_range_min t p v lo hi :
  reachable t → 0 ≤ p < n_nodes t → v ≤ S_max →
  (¬ (lo ≤ p < hi) →
   (range_min lo hi (update_op p v t)).1 = (range_min lo hi t).1)
  ∧ (lo ≤ p < hi →
     (range_min lo hi (update_op p v t)).1
     = Z.min v (Z.min (range_min lo p t).1 (range_min (p + 1) hi t).1)).
Proof.
  intros Hreach Hp Hv.
  pose proof (reachable_inv t Hreach) as Hinv.
  pose proof (state_inv_update t p v Hinv Hv) as Hinv'.
  rewrite !(range_min_seg _ _ _ Hinv), !(range_min_seg _ _ _ Hinv').
  destruct Hinv as (Hrank & Hmin & Havl & Hn).
  simpl. rewrite (update_inorder _ 0) by (done || lia). rewrite Z.sub_0_r.
  assert (Z.to_nat p < length (inorder (root t)))%nat as Hlen.
  { rewrite size_inorder in Hn. lia. }
  split.
  - intros Hout. apply seg_min_list_update_out. lia.
  - intros Hin.
    rewrite (seg_min_split _ 0 lo p hi) by lia.
    rewrite (seg_min_split _ 0 p (p + 1) hi) by lia.
    rewrite !(seg_min_list_update_out _ 0 (Z.to_nat p) v lo p) by lia.
    rewrite !(seg_min_list_update_out _ 0 (Z.to_nat p) v (p + 1) hi) by lia.
    pose proof (seg_min_at (<[Z.to_nat p := v]> (inorder (root t)))
                  p (Z.to_nat p) v) as Hat.
    rewrite list_lookup_insert_eq in Hat by done.
    replace (p - Z.of_nat (Z.to_nat p)) with 0 in Hat by lia.
    specialize (Hat eq_refl Hv). unfold S_t in *. lia.
Qed.

Lemma list_insert_at_lookup p v (l : list S_t) :
  0 ≤ p ≤ Z.of_nat (length l) →
  list_insert_at p v l !! Z.to_nat p = Some v
  ∧ (∀ i, (i < Z.to_nat p)%nat → list_insert_at p v l !! i = l !! i)
  ∧ (∀ i, (Z.to_nat p ≤ i)%nat → list_insert_at p v l !! S i = l !! i).
Proof.
  intros Hp.
  assert (length (take (Z.to_nat p) l) = Z.to_nat p) as Hlen.
  { rewrite length_take. lia. }
  unfold list_insert_at. repeat split.
  - apply list_lookup_middle. by rewrite Hlen.
  - intros i Hi. rewrite lookup_app_l by lia. by rewrite lookup_take_lt.
  - intros i Hi. rewrite lookup_app_r by lia. rewrite Hlen.
    replace (S i - Z.to_nat p)%nat with (S (i - Z.to_nat p)) by lia.
    simpl. rewrite lookup_drop. f_equal. lia.
Qed.

(** The state an in-contract [insert] returns. *)
Lemma insert_op_spec t p v :
  state_inv t → 0 ≤ p ≤ n_nodes t →
  ∃ t', insert_op p v t = Some t'
        ∧ rank_inv 0 (root t') ∧ n_nodes t' = size (root t')
        ∧ n_nodes t' = n_nodes t + 1
        ∧ inorder (root t') = list_insert_at p v (inorder (root t)).
Proof.
  intros Hinv Hp.
  destruct (insert_op_total t p v Hinv) as (t' & Hins).
  exists t'. split; [done|].
  destruct Hinv as (Hrank & Hmin & Havl & Hn).
  apply insert_op_inv in Hins as (root' & Hins & ->).
  destruct (insert_rank_inorder _ 0 p v root' Hrank ltac:(lia) Hins)
    as [Hrank' Hio].
  rewrite Z.sub_0_r in Hio. simpl.
  rewrite (insert_size _ 0 p v root' Hrank ltac:(lia) Hins).
  repeat split; try done. lia.
Qed.

(** X10. In every reachable state and for every [0 <= p <= n_nodes], after
    [insert(p, v)] [operator[](p)] returns [v], every position before [p]
    reads as before, and every former position [q >= p] reads at [q + 1]. *)
Theorem insert_then_access t p v :
  reachable t → 0 ≤ p ≤ n_nodes t →
  ∃ t', insert_op p v t = Some t'
        ∧ access p t' = Some (v, t')
        ∧ (∀ q, 0 ≤ q < p → fst <$> access q t' = fst <$> access q t)
        ∧ (∀ q, p ≤ q < n_nodes t →
             fst <$> access (q + 1) t' = fst <$> access q t).
Proof.
  intros Hreach Hp.
  pose proof (reachable_inv t Hreach) as Hinv.
  destruct (insert_op_spec t p v Hinv Hp)
    as (t' & Hins & Hrank' & Hn' & Hcnt & Hio).
  exists t'. split; [done|].
  destruct Hinv as (Hrank & Hmin & Havl & Hn).
  destruct (list_insert_at_lookup p v (inorder (root t)))
    as (Hat & Hbefore & Hafter).
  { rewrite <- size_inorder. lia. }
  repeat split.
  - destruct (access_in_range t' p Hrank' Hn' ltac:(lia)) as (x & -> & Hx).
    rewrite Hio, Hat in Hx. congruence.
  - intros q Hq.
    destruct (access_in_range t' q Hrank' Hn' ltac:(lia)) as (x & -> & Hx).
    destruct (access_in_range t q Hrank Hn ltac:(lia)) as (y & -> & Hy).
    rewrite Hio, Hbefore in Hx by lia. simpl. congruence.
  - intros q Hq.
    destruct (access_in_range t' (q + 1) Hrank' Hn' ltac:(lia))
      as (x & -> & Hx).
    destruct (access_in_range t q Hrank Hn ltac:(lia)) as (y & -> & Hy).
    replace (Z.to_nat (q + 1)) with (S (Z.to_nat q)) in Hx by lia.
    rewrite Hio, Hafter in Hx by lia. simpl. congruence.
Qed.

Lemma seg_min_take_drop (l : list S_t) (k : nat) lo hi :
  (k ≤ length l)%nat →
  seg_min l 0 lo hi
  = Z.min (seg_min (take k l) 0 lo hi) (seg_min (drop k l) (Z.of_nat k) lo hi).
Proof.
  intros Hk. rewrite <- (take_drop k l) at 1. rewrite seg_min_app.
  rewrite length_take. replace (0 + Z.of_nat (k `min` length l)) with (Z.of_nat k)
    by lia. done.
Qed.

(** X11. In every reachable state and for an in-contract [insert(p, v)]: a
    query that ends at or before [p] returns afterwards what it returned
    before; a query that starts after [p] returns what the query shifted down
    by one returned before; and a query over [lo, hi) with [lo <= p < hi]
    returns the smallest of [v] and the former results over [lo, p) and
    [p, hi-1). *)
Theorem insert_then_range_min t p v lo hi :
  reachable t → 0 ≤ p ≤ n_nodes t → v ≤ S_max →
  ∃ t', insert_op p v t = Some t'
        ∧ (hi ≤ p → (range_min lo hi t').1 = (range_min lo hi t).1)
        ∧ (p < lo →
           (range_min lo hi t').1 = (range_min (lo - 1) (hi - 1) t).1)
        ∧ (lo ≤ p < hi →
           (range_min lo hi t').1
           = Z.min v (Z.min (range_min lo p t).1 (range_min p (hi - 1) t).1)).
Proof.
  intros Hreach Hp Hv.
  pose proof (reachable_inv t Hreach) as Hinv.
  destruct (insert_op_spec t p v Hinv Hp)
    as (t' & Hins & Hrank' & Hn' & Hcnt & Hio).
  exists t'. split; [done|].
  pose proof (state_inv_insert t p v t' Hinv Hp Hv Hins) as Hinv'.
  rewrite !(range_min_seg _ _ _ Hinv), !(range_min_seg _ _ _ Hinv').
  destruct Hinv as (Hrank & Hmin & Havl & Hn).
  simpl. rewrite Hio. clear Hio Hinv' Hins Hrank' Hn' Hcnt.
  set (l := inorder (root t)).
  assert (Z.to_nat p ≤ length l)%nat as Hk.
  { unfold l. rewrite size_inorder in Hn. lia. }
  assert (length (take (Z.to_nat p) l) = Z.to_nat p) as Hlen.
  { rewrite length_take. lia. }
  unfold list_insert_at. rewrite seg_min_app, Hlen.
  replace (0 + Z.of_nat (Z.to_nat p)) with p by lia.
  rewrite !(seg_min_take_drop l (Z.to_nat p)) by done.
  replace (Z.of_nat (Z.to_nat p)) with p by lia.
  pose proof (seg_min_le (take (Z.to_nat p) l) 0 lo hi).
  pose proof (seg_min_le (drop (Z.to_nat p) l) p (lo - 1) (hi - 1)).
  cbn [seg_min].
  rewrite <- (seg_min_shift (-1) (drop (Z.to_nat p) l) (p + 1) lo hi).
  replace (p + 1 + -1) with p by lia.
  replace (lo + -1) with (lo - 1) by lia. replace (hi + -1) with (hi - 1) by lia.
  repeat split.
  - intros Hhi. rewrite !(seg_min_out_hi (drop _ _)) by lia.
    repeat key_case; simpl; lia.
  - intros Hlo. rewrite !(seg_min_out_lo (take _ _)) by lia.
    repeat key_case; simpl; lia.
  - intros Hin.
    rewrite (seg_min_out_hi (drop _ _) p lo p) by lia.
    rewrite (seg_min_out_lo (take _ _) 0 p (hi - 1)) by lia.
    rewrite (seg_min_hi_irrel (take _ _) 0 lo hi p) by lia.
    rewrite (seg_min_lo_irrel (drop _ _) p (lo - 1) p) by lia.
    pose proof (seg_min_le (take (Z.to_nat p) l) 0 lo p).
    pose proof (seg_min_le (drop (Z.to_nat p) l) p p (hi - 1)).
    repeat key_case; simpl; lia.
Qed.

(** ** Update *)

Lemma update_update t : ∀ p v w, update (update t p v) p w = update t p w.
Proof.
  induction t as [|r x m d l IHl rt IHr]; intros p v w; [done|].
  cbn [update].
  destruct (Z.ltb_spec p r) as [Hlt|Hge].
  - cbn [update update_min]. destruct (Z.ltb_spec p r); [|lia].
    by rewrite IHl.
  - rewrite Z.gtb_ltb. destruct (Z.ltb_spec r p) as [Hgt|Hle].
    + cbn [update update_min]. destruct (Z.ltb_spec p r); [lia|].
      rewrite Z.gtb_ltb. destruct (Z.ltb_spec r p); [|lia].
      by rewrite IHr.
    + cbn [update update_min]. destruct (Z.ltb_spec p r); [lia|].
      rewrite Z.gtb_ltb. destruct (Z.ltb_spec r p); [lia|]. done.
Qed.

(** X12. On any tree and for any rank, of two [update] calls at the same
    rank only the second counts: the object after both is the object after
    the second alone. *)
Theorem update_last_write_wins t p v w :
  update_op p w (update_op p v t) = update_op p w t.
Proof. unfold update_op. simpl. by rewrite update_update. Qed.

Lemma update_same t : ∀ b p x,
  rank_inv b t → min_inv t → b ≤ p < b + size t →
  inorder t !! Z.to_nat (p - b) = Some x → update t p x = t.
Proof.
  induction t as [|r v m d l IHl rt IHr]; intros b p x Hinv Hmin Hp Hx;
    simpl in *; [done|].
  destruct Hinv as (Hr & Hl & Hrt). destruct Hmin as (Hv & Hm & Hml & Hmr).
  pose proof (size_nonneg l). pose proof (size_nonneg rt).
  pose proof (size_inorder l) as Hsl.
  repeat key_case.
  - rewrite lookup_app_l in Hx by lia.
    rewrite (IHl b p x) by (done || lia).
    rewrite min_of_eq by done. by rewrite <- Hm.
  - rewrite lookup_app_r in Hx by lia.
    replace (Z.to_nat (p - b) - length (inorder l))%nat
      with (S (Z.to_nat (p - r - 1))) in Hx by lia.
    simpl in Hx.
    rewrite (IHr 1 (p - r) x) by (done || lia).
    rewrite min_of_eq by done. by rewrite <- Hm.
  - replace (Z.to_nat (p - b)) with (length (inorder l)) in Hx by lia.
    rewrite list_lookup_middle in Hx by done. injection Hx as ->.
    rewrite min_of_eq by done. by rewrite <- Hm.
Qed.

(** X13. In every reachable state, writing back with [update(p, x)] the
    value [x] that [operator[](p)] returns for an in-range [p] leaves the
    object as it was. *)
Theorem update_with_current_value t p x :
  reachable t → 0 ≤ p < n_nodes t → access p t = Some (x, t) →
  update_op p x t = t.
Proof.
  intros Hreach Hp Hacc.
  destruct (reachable_inv t Hreach) as (Hrank & Hmin & Havl & Hn).
  destruct (access_in_range t p Hrank Hn Hp) as (y & Hacc' & Hy).
  assert (y = x) as -> by congruence.
  unfold update_op.
  assert (update (root t) p x = root t) as ->.
  { apply (update_same _ 0); [done|done|lia|by rewrite Z.sub_0_r]. }
  by destruct t.
Qed.

(** ** Ranks below zero (a signed key type, as in the test driver) *)

Lemma search_below t : ∀ b p, rank_inv b t → 0 ≤ b → p < b → search t p = Nil.
Proof.
  induction t as [|r v m d l IHl rt IHr]; intros b p Hinv Hb Hp; simpl; [done|].
  destruct Hinv as (Hr & Hl & Hrt). pose proof (size_nonneg l).
  destruct (Z.ltb_spec p r); [|lia]. by apply (IHl b).
Qed.

Lemma search_above t : ∀ b p,
  rank_inv b t → b + size t ≤ p → search t p = Nil.
Proof.
  induction t as [|r v m d l IHl rt IHr]; intros b p Hinv Hp; simpl in *;
    [done|].
  destruct Hinv as (Hr & Hl & Hrt).
  pose proof (size_nonneg l). pose proof (size_nonneg rt).
  repeat key_case; try lia. apply (IHr 1); [done|lia].
Qed.

Lemma update_below t : ∀ b p x,
  rank_inv b t → min_inv t → 0 ≤ b → p < b → update t p x = t.
Proof.
  induction t as [|r v m d l IHl rt IHr]; intros b p x Hinv Hmin Hb Hp;
    simpl in *; [done|].
  destruct Hinv as (Hr & Hl & Hrt). destruct Hmin as (Hv & Hm & Hml & Hmr).
  pose proof (size_nonneg l).
  destruct (Z.ltb_spec p r); [|lia]. rewrite (IHl b) by (done || lia). simpl.
  rewrite min_of_eq by done. by rewrite <- Hm.
Qed.

(** X14. In every reachable state [search] returns [nullptr] exactly for
    the ranks outside [0, n_nodes). *)
Theorem search_null_iff t p :
  reachable t → search (root t) p = Nil ↔ ¬ (0 ≤ p < n_nodes t).
Proof.
  intros Hreach.
  destruct (reachable_inv t Hreach) as (Hrank & Hmin & Havl & Hn).
  split.
  - intros Hnil Hp.
    destruct (search_spec _ 0 p Hrank ltac:(lia))
      as (r & v & m & d & l & rt & Hs & _).
    congruence.
  - intros Hp. destruct (Z.lt_ge_cases p 0).
    + by apply (search_below _ 0).
    + apply (search_above _ 0); [done|lia].
Qed.

(** X15. In every reachable state [update(p, v)] with a negative rank
    changes nothing. *)
Theorem update_negative_noop t p v :
  reachable t → p < 0 → update_op p v t = t.
Proof.
  intros Hreach Hp.
  destruct (reachable_inv t Hreach) as (Hrank & Hmin & Havl & Hn).
  unfold update_op.
  rewrite (update_below _ 0) by (done || lia). by destruct t.
Qed.

(** X16. In every reachable state that holds at least one element,
    [operator[](p)] with a negative rank passes the guard, [search] returns
    [nullptr], and the code dereferences it. *)
Theorem access_negative_null t p :
  reachable t → p < 0 → root t ≠ Nil → access p t = None.
Proof.
  intros Hreach Hp Hroot.
  destruct (reachable_inv t Hreach) as (Hrank & Hmin & Havl & Hn).
  unfold access.
  destruct (root t) as [|r v m d l rt] eqn:Hr; [done|].
  simpl is_null. rewrite orb_false_l, Z.geb_leb.
  pose proof (size_nonneg (Node r v m d l rt)).
  destruct (Z.leb_spec (n_nodes t) p); [lia|].
  by rewrite (search_below _ 0 p Hrank).
Qed.

(** ** [insert] with a position past the end *)

Lemma insert_past_end_inorder t : ∀ b p v t',
  rank_inv b t → b + size t < p → insert t p v = Some t' →
  inorder t' = inorder t ++ [v].
Proof.
  induction t as [|r x m d l IHl rt IHr]; intros b p v t' Hinv Hp H.
  - simpl in *. by injection H as <-.
  - destruct Hinv as (Hr & Hl & Hrt).
    pose proof (size_nonneg l). pose proof (size_nonneg rt). simpl in Hp.
    apply insert_node_inv in H as [(Hle & _)|(Hlt & rt' & Hins & H)]; [lia|].
    rewrite (rebalance_inorder _ _ _ H). simpl.
    rewrite (IHr 1 (p - r) v rt' Hrt ltac:(lia) Hins).
    by rewrite <- app_assoc.
Qed.

Lemma gap_inv_not_Nil b g t : gap_inv b g t → t ≠ Nil.
Proof. by destruct t. Qed.

Lemma right_rotate_gap b g y x :
  right_rotate y = Some x → gap_inv b g y → gap_inv b g x.
Proof.
  destruct y as [|yr yv ym yd [|xr xv xm xd xl tmp] yrt]; simpl; try done.
  intros [= <-]. simpl. intros ((-> & Hxl & Htmp) & Hcase).
  split; [done|]. right. split; [done|]. split; [done|].
  destruct Hcase as [[-> ->]|[-> Hg]]; [left|right]; split; try done; lia.
Qed.

Lemma left_rotate_gap b g x y :
  left_rotate x = Some y → gap_inv b g x → gap_inv b g y.
Proof.
  destruct x as [|xr xv xm xd xl [|yr yv ym yd tmp yrt]]; simpl; try done.
  intros [= <-]. simpl. intros (Hxl & [[? _]|[-> (Htmp & Hcase)]]); [done|].
  split; [done|].
  destruct Hcase as [[-> ->]|[-> Hg]]; [left|right]; split; try done; lia.
Qed.

Lemma rebalance_gap b g n p t' :
  rebalance n p = Some t' → gap_inv b g n → gap_inv b g t'.
Proof.
  destruct n as [|r v m d l rt]; [done|]. intros H Hinv.
  apply rebalance_cases in H as [->|[(l' & Hl & H)|(rt' & Hr & H)]]; [done|..].
  - apply (right_rotate_gap b g) in H; [done|].
    destruct Hl as [->|Hl]; [done|].
    simpl in *. destruct Hinv as (Hl' & Hcase).
    rewrite (rotate_size _ _ (left_rotate_inorder _ _ Hl)).
    split; [by apply (left_rotate_rank b _ _ Hl)|done].
  - apply (left_rotate_gap b g) in H; [done|].
    destruct Hr as [->|Hr]; [done|].
    simpl in *. destruct Hinv as (Hl' & [[-> _]|[-> Hg]]); [done|].
    split; [done|]. right. split; [done|].
    by apply (right_rotate_gap 1 g _ _ Hr).
Qed.

Lemma insert_gap t : ∀ b p v t',
  rank_inv b t → b + size t < p → insert t p v = Some t' →
  gap_inv b (p - b - size t) t'.
Proof.
  induction t as [|r x m d l IHl rt IHr]; intros b p v t' Hinv Hp H.
  - simpl in *. injection H as <-. simpl. split; [done|]. left.
    split; [done|lia].
  - destruct Hinv as (Hr & Hl & Hrt).
    pose proof (size_nonneg l). pose proof (size_nonneg rt). simpl in Hp.
    apply insert_node_inv in H as [(Hle & _)|(Hlt & rt' & Hins & H)]; [lia|].
    apply (rebalance_gap b _ _ _ _ H). simpl. split; [done|]. right.
    split; [done|].
    pose proof (IHr 1 (p - r) v rt' Hrt ltac:(lia) Hins) as Hg.
    by replace (p - b - (size l + 1 + size rt)) with (p - r - 1 - size rt)
      by lia.
Qed.

Lemma search_gap t : ∀ b g q,
  gap_inv b g t → b + size t - 1 ≤ q < b + size t - 1 + g →
  search t q = Nil.
Proof.
  induction t as [|r x m d l IHl rt IHr]; intros b g q Hinv Hq; [done|].
  destruct Hinv as (Hl & Hcase). pose proof (size_nonneg l).
  cbn [size] in Hq. cbn [search].
  destruct Hcase as [[-> ->]|[-> Hg]].
  - simpl in Hq. destruct (Z.ltb_spec q (size l + b + g)); [|lia].
    apply (search_above _ b); [done|lia].
  - pose proof (gap_inv_not_Nil _ _ _ Hg) as Hne.
    assert (1 ≤ size rt) as Hs.
    { destruct rt; [done|]. simpl. pose proof (size_nonneg rt1).
      pose proof (size_nonneg rt2). lia. }
    destruct (Z.ltb_spec q (size l + b)); [lia|].
    rewrite Z.gtb_ltb. destruct (Z.ltb_spec (size l + b) q); [|lia].
    apply (IHr 1 g); [done|lia].
Qed.

(** X17. In every reachable state, [insert(p, v)] with [p > n_nodes] does
    not fail and appends [v] to the sequence, but the element cannot be read
    back: [operator[]] at its index (the old [n_nodes]) dereferences
    [nullptr], and at [p] the guard returns 0. *)
Theorem insert_past_end t p v :
  reachable t → n_nodes t < p →
  ∃ t', insert_op p v t = Some t'
        ∧ to_vector t' = to_vector t ++ [v]
        ∧ n_nodes t' = n_nodes t + 1
        ∧ access (n_nodes t) t' = None
        ∧ access p t' = Some (0, t').
Proof.
  intros Hreach Hp.
  pose proof (reachable_inv t Hreach) as Hinv.
  destruct (insert_op_total t p v Hinv) as (t' & Hins).
  exists t'. split; [done|].
  destruct Hinv as (Hrank & Hmin & Havl & Hn).
  apply insert_op_inv in Hins as (root' & Hins & ->).
  pose proof (size_nonneg (root t)) as Hs.
  pose proof (insert_past_end_inorder _ 0 p v root' Hrank ltac:(lia) Hins)
    as Hio.
  pose proof (insert_gap _ 0 p v root' Hrank ltac:(lia) Hins) as Hgap.
  assert (size root' = size (root t) + 1) as Hsize.
  { rewrite !size_inorder, Hio, length_app. simpl. lia. }
  rewrite !to_vector_inorder. simpl root. repeat split; try done.
  - unfold access. simpl root. simpl n_nodes.
    pose proof (gap_inv_not_Nil _ _ _ Hgap) as Hne.
    destruct root' as [|r x m d l rt] eqn:Hroot; [done|].
    simpl is_null. rewrite orb_false_l, Z.geb_leb.
    destruct (Z.leb_spec (n_nodes t + 1) (n_nodes t)); [lia|].
    rewrite (search_gap _ 0 (p - 0 - size (root t)) (n_nodes t) Hgap); [done|].
    lia.
  - apply access_past_end. simpl. lia.
Qed.

(** ** Rotations *)

(** X18. Whenever [right_rotate(y)] returns (that is, [y] and [y->left] are
    not null), the new subtree has the in-order sequence and the size of the
    old one, keeps the rank invariant (for either offset) and the minimum
    invariant, and caches the same minimum at its root. *)
Theorem right_rotate_preserves b y x :
  right_rotate y = Some x →
  inorder x = inorder y ∧ size x = size y
  ∧ (rank_inv b y → rank_inv b x)
  ∧ (min_inv y → min_inv x ∧ get_min x = get_min y).
Proof.
  intros H. pose proof (right_rotate_inorder _ _ H) as Hio.
  repeat split.
  - done.
  - by apply rotate_size.
  - by apply right_rotate_rank.
  - by apply (right_rotate_min _ _ H).
  - by apply (right_rotate_min _ _ H).
Qed.

(** X19. Whenever [left_rotate(x)] returns (that is, [x] and [x->right] are
    not null), the new subtree has the in-order sequence and the size of the
    old one, keeps the rank invariant (for either offset) and the minimum
    invariant, and caches the same minimum at its root. *)
Theorem left_rotate_preserves b x y :
  left_rotate x = Some y →
  inorder y = inorder x ∧ size y = size x
  ∧ (rank_inv b x → rank_inv b y)
  ∧ (min_inv x → min_inv y ∧ get_min y = get_min x).
Proof.
  intros H. pose proof (left_rotate_inorder _ _ H) as Hio.
  repeat split.
  - done.
  - by apply rotate_size.
  - by apply left_rotate_rank.
  - by apply (left_rotate_min _ _ H).
  - by apply (left_rotate_min _ _ H).
Qed.

(** X20. [left_rotate] undoes [right_rotate]: if the [min] and [depth]
    fields of [y] and of its left child are up to date, rotating [y] to the
    right and the result to the left gives back [y], field by field. *)
Theorem right_then_left_rotate y x :
  right_rotate y = Some x → cached_ok y → cached_ok (walk [L] y) →
  left_rotate x = Some y.
Proof.
  destruct y as [|yr yv ym yd [|xr xv xm xd xl tmp] yrt]; simpl; try done.
  intros [= <-] [Hym Hyd] [Hxm Hxd]. simpl in Hyd |- *.
  rewrite Hyd, Hxd, Hxm. do 2 f_equal. lia.
Qed.

(** X21. [right_rotate] undoes [left_rotate]: if the [min] and [depth]
    fields of [x] and of its right child are up to date, rotating [x] to the
    left and the result to the right gives back [x], field by field. *)
Theorem left_then_right_rotate x y :
  left_rotate x = Some y → cached_ok x → cached_ok (walk [R] x) →
  right_rotate y = Some x.
Proof.
  destruct x as [|xr xv xm xd xl [|yr yv ym yd tmp yrt]]; simpl; try done.
  intros [= <-] [Hxm Hxd] [Hym Hyd]. simpl in Hxd |- *.
  rewrite Hxd, Hyd, Hym. do 3 f_equal. lia.
Qed.

(** ** Leaves and depths *)

(** X22. In every reachable state a node is a leaf ([is_leaf()]) exactly
    when its depth field is 1; a leaf caches its own value as [min] and its
    rank is the offset of its path (0 on the left spine, 1 elsewhere). *)
Theorem leaf_characterisation t path r v m d l rt :
  reachable t → walk path (root t) = Node r v m d l rt →
  (is_leaf (Node r v m d l rt) = Some true ↔ d = 1)
  ∧ (is_leaf (Node r v m d l rt) = Some true → m = v ∧ r = offset path).
Proof.
  intros Hreach Hw.
  destruct (reachable_inv t Hreach) as (Hrank & Hmin & Havl & Hn).
  pose proof (rank_inv_node 0 _ path r v m d l rt Hrank Hw) as Hr.
  apply (min_inv_walk path) in Hmin. rewrite Hw in Hmin.
  apply (avl_inv_walk path) in Havl. rewrite Hw in Havl.
  destruct Hmin as (Hv & Hm & _). destruct Havl as (Hd & Hb & Hal & Har).
  split.
  - split.
    + destruct l, rt; simpl in *; intros; first [done|lia].
    + intros ->.
      pose proof (avl_inv_depth_nonneg _ Hal). pose proof (avl_inv_depth_nonneg _ Har).
      destruct l as [|? ? ? dl ? ?], rt as [|? ? ? dr ? ?]; [done|..].
      * pose proof (avl_inv_depth_pos _ _ _ _ _ _ Har). simpl in *. lia.
      * pose proof (avl_inv_depth_pos _ _ _ _ _ _ Hal). simpl in *. lia.
      * pose proof (avl_inv_depth_pos _ _ _ _ _ _ Hal). simpl in *. lia.
  - destruct l, rt; simpl; try done. intros _. simpl in *.
    unfold offset. split; lia.
Qed.

Lemma avl_size_bound t : ∀ k,
  avl_inv t → 0 ≤ k → 2 * k ≤ get_depth t → 2 ^ k ≤ size t + 1.
Proof.
  induction t as [|r v m d l IHl rt IHr]; intros k Hinv Hk Hd; simpl in *.
  - replace k with 0 by lia. done.
  - destruct Hinv as (-> & Hb & Hl & Hr).
    pose proof (size_nonneg l). pose proof (size_nonneg rt).
    destruct (Z.eq_dec k 0) as [->|Hne]; [simpl; lia|].
    specialize (IHl (k - 1) Hl ltac:(lia) ltac:(lia)).
    specialize (IHr (k - 1) Hr ltac:(lia) ltac:(lia)).
    replace k with (Z.succ (k - 1)) by lia.
    rewrite Z.pow_succ_r by lia. lia.
Qed.

Lemma size_walk path : ∀ t, size (walk path t) ≤ size t.
Proof.
  induction path as [|[|] path IH]; intros t.
  - simpl. lia.
  - destruct t as [|r v m d l rt]; simpl; [lia|].
    specialize (IH l). pose proof (size_nonneg rt). lia.
  - destruct t as [|r v m d l rt]; simpl; [lia|].
    specialize (IH rt). pose proof (size_nonneg l). lia.
Qed.

(** X23. In every reachable state the depth of every subtree is logarithmic
    in its number of nodes: [2 ^ (depth / 2) <= size + 1], with [size] at
    most [n_nodes]. *)
Theorem depth_logarithmic t path :
  reachable t →
  2 ^ (get_depth (walk path (root t)) / 2) ≤ size (walk path (root t)) + 1
  ∧ size (walk path (root t)) ≤ n_nodes t.
Proof.
  intros Hreach.
  destruct (reachable_inv t Hreach) as (Hrank & Hmin & Havl & Hn).
  apply (avl_inv_walk path) in Havl.
  pose proof (avl_inv_depth_nonneg _ Havl) as Hd.
  split.
  - apply avl_size_bound; [done|..].
    + apply Z.div_pos; lia.
    + apply Z.mul_div_le. lia.
  - rewrite Hn. apply size_walk.
Qed.

(** X24. For a key type of 1 to 15 bytes (so that [d_t] is [uint8_t]) and
    as long as [n_nodes] is below [2 ^ (8 * sizeof(K))], in every reachable
    state every depth field fits [d_t] and every balance fits the [int8_t]
    that [get_balance] returns. *)
Theorem depth_fits_d_t t sizeof_K path :
  reachable t → 1 ≤ sizeof_K ≤ 15 → n_nodes t < 2 ^ (8 * sizeof_K) →
  0 ≤ get_depth (walk path (root t)) ≤ d_t_max sizeof_K
  ∧ -128 ≤ get_balance (walk path (root t)) ≤ 127.
Proof.
  intros Hreach Hk Hn.
  destruct (reachable_inv t Hreach) as (Hrank & Hmin & Havl & Hcnt).
  apply (avl_inv_walk path) in Havl.
  pose proof (avl_inv_depth_nonneg _ Havl) as Hd.
  pose proof (size_walk path (root t)) as Hsz.
  assert (d_t_max sizeof_K = 255) as ->.
  { unfold d_t_max, in_range_unsigned, UINT8_MAX.
    destruct (Z.leb_spec (8 * sizeof_K - 0) (255 - 0)); [done|lia]. }
  split.
  - split; [done|].
    assert (2 ^ (get_depth (walk path (root t)) / 2) ≤ 2 ^ (8 * sizeof_K))
      as Hpow.
    { pose proof (avl_size_bound _ (get_depth (walk path (root t)) / 2) Havl
                    ltac:(apply Z.div_pos; lia)
                    ltac:(apply Z.mul_div_le; lia)).
      lia. }
    apply Z.pow_le_mono_r_iff in Hpow; [|lia|lia].
    pose proof (Z.div_mod (get_depth (walk path (root t))) 2 ltac:(lia)).
    pose proof (Z.mod_pos_bound (get_depth (walk path (root t))) 2 ltac:(lia)).
    lia.
  - destruct (walk path (root t)) as [|r v m d l rt]; simpl; [lia|].
    destruct Havl as (_ & Hb & _). lia.
Qed.

(** ** The loop of the test driver *)



(** ** The [include_right] flag *)

(** X26. On a subtree that satisfies the rank and minimum invariants,
    whenever the interval reaches the end of the subtree, [min_range]
    returns the same value with [include_right] set and unset: the flag
    saves work and decides nothing. *)
Theorem min_range_flag_irrelevant t b lo hi :
  rank_inv b t → min_inv t → 0 ≤ b → b + size t ≤ hi →
  min_range t lo hi true = min_range t lo hi false.
Proof.
  intros Hrank Hmin Hb Hhi.
  by rewrite !(min_range_spec t b) by done.
Qed.

End AvlRmq.

(** * The test driver's scenario, on [avl_rmq<int,int>] *)

Lemma seed_tree_run :
  run_ops INT_MAX (insert_all_ops 0 freq) (avl_rmq_new 0) = Some seed_tree.
Proof. vm_compute. reflexivity. Qed.

Lemma seed_tree_reachable : reachable INT_MAX seed_tree.
Proof.
  apply (run_ops_reachable INT_MAX (insert_all_ops 0 freq) (avl_rmq_new 0)).
  - apply reach_new.
  - apply seed_tree_run.
Qed.

(** After the loop, the tree prints the inserted array, and the two queries
    of the driver give 1 and 2. *)
Example driver_after_inserts :
  insert_all 0 freq (avl_rmq_new 0) = Some seed_tree
  ∧ to_vector seed_tree = freq
  ∧ (range_min INT_MAX 1 3 seed_tree).1 = 1
  ∧ (range_min INT_MAX 3 7 seed_tree).1 = 2.
Proof. vm_compute. repeat split. Qed.

(** After [insert(0, 12)] and [update(2, 12)]: the printed array, the two
    queries (2 and 3) and [avl[1]] (2). *)
Example driver_after_update :
  ∃ t1, insert_op 0 12 seed_tree = Some t1
        ∧ to_vector t1 = 12 :: freq
        ∧ to_vector (update_op 2 12 t1)
          = [12; 2; 12; 1; 3; 2; 3; 4; 5; 6; 7; 8; 9]
        ∧ (range_min INT_MAX 1 3 (update_op 2 12 t1)).1 = 2
        ∧ (range_min INT_MAX 6 12 (update_op 2 12 t1)).1 = 3
        ∧ fst <$> access 1 (update_op 2 12 t1) = Some 2.
Proof. eexists. vm_compute. repeat split. Qed.

(** ** Instances of the theorems on the driver's tree *)

Lemma range_min_correct_witness :
  reachable INT_MAX seed_tree ∧ 0 ≤ 1 ≤ 3 ≤ n_nodes seed_tree
  ∧ range_min INT_MAX 1 3 seed_tree
    = (list_min INT_MAX (slice 1 3 (to_vector seed_tree)), seed_tree)
  ∧ (1 = 3 → (range_min INT_MAX 1 3 seed_tree).1 = INT_MAX)
  ∧ (1 < 3 →
     (range_min INT_MAX 1 3 seed_tree).1 ∈ slice 1 3 (to_vector seed_tree)
     ∧ ∀ x, x ∈ slice 1 3 (to_vector seed_tree) →
            (range_min INT_MAX 1 3 seed_tree).1 ≤ x).
Proof.
  split; [exact seed_tree_reachable|].
  split; [unfold seed_tree; simpl; lia|].
  apply (range_min_correct INT_MAX seed_tree 1 3).
  - exact seed_tree_reachable.
  - unfold seed_tree; simpl; lia.
Defined.

Lemma insert_shifts_witness :
  reachable INT_MAX seed_tree ∧ 0 ≤ 0 ≤ n_nodes seed_tree
  ∧ ∃ t', insert_op 0 12 seed_tree = Some t'
          ∧ to_vector t' = list_insert_at 0 12 (to_vector seed_tree)
          ∧ to_vector t' !! Z.to_nat 0 = Some 12
          ∧ (∀ i, (i < Z.to_nat 0)%nat →
                  to_vector t' !! i = to_vector seed_tree !! i)
          ∧ (∀ i, (Z.to_nat 0 ≤ i)%nat →
                  to_vector t' !! S i = to_vector seed_tree !! i)
          ∧ n_nodes t' = n_nodes seed_tree + 1.
Proof.
  split; [exact seed_tree_reachable|].
  split; [unfold seed_tree; simpl; lia|].
  apply (insert_shifts INT_MAX seed_tree 0 12).
  - exact seed_tree_reachable.
  - unfold seed_tree; simpl; lia.
Defined.

(** C3, as stated, fails on the tree that holds one element: after
    [insert(0, 2)] on the empty tree the root is the leaf created at the
    absent root, and its rank is 0, not [1 + size left = 1]. *)
Lemma rank_one_plus_left_counterexample :
  insert_op 0 2 (avl_rmq_new 0) = Some (mk_avl_rmq (Node 0 2 2 1 Nil Nil) 1)
  ∧ reachable INT_MAX (mk_avl_rmq (Node 0 2 2 1 Nil Nil) 1)
  ∧ ¬ (∀ t, reachable INT_MAX t →
         ∀ path r v m d l rt,
           walk path (root t) = Node r v m d l rt → r = 1 + size l)
  ∧ ¬ (∀ k v r' v' m' d' l' rt',
         insert Nil k v = Some (Node r' v' m' d' l' rt') → r' = 1).
Proof.
  assert (reachable INT_MAX (mk_avl_rmq (Node 0 2 2 1 Nil Nil) 1)) as Hreach.
  { apply (reach_insert INT_MAX (avl_rmq_new 0) 0 2).
    - apply reach_new.
    - simpl. lia.
    - unfold INT_MAX. lia.
    - reflexivity. }
  split; [reflexivity|]. split; [exact Hreach|]. split.
  - intros Hall.
    specialize (Hall _ Hreach [] 0 2 2 1 Nil Nil eq_refl). simpl in Hall. lia.
  - intros Hall. specialize (Hall 0 2 0 2 2 1 Nil Nil eq_refl). lia.
Qed.

Lemma rank_local_witness :
  reachable INT_MAX seed_tree
  ∧ (∀ path r v m d l rt,
       walk path (root seed_tree) = Node r v m d l rt →
       (forallb is_L path = false → r = 1 + size l)
       ∧ (forallb is_L path = true → r = size l))
  ∧ (∀ k v, insert Nil k v = Some (Node k v v 1 Nil Nil))
  ∧ (∀ p, 0 ≤ p ≤ n_nodes seed_tree →
       walk (insert_descent (root seed_tree) p).1 (root seed_tree) = Nil
       ∧ (insert_descent (root seed_tree) p).2
         = if forallb is_L (insert_descent (root seed_tree) p).1
           then 0 else 1).
Proof.
  split; [exact seed_tree_reachable|].
  apply (rank_local INT_MAX seed_tree). exact seed_tree_reachable.
Defined.

Lemma rank_offset_invariant_witness :
  reachable INT_MAX seed_tree
  ∧ (∀ path r v m d l rt,
       walk path (root seed_tree) = Node r v m d l rt →
       r = size l + offset path)
  ∧ (∀ p, 0 ≤ p < n_nodes seed_tree →
       ∃ r v m d l rt, search (root seed_tree) p = Node r v m d l rt
                       ∧ to_vector seed_tree !! Z.to_nat p = Some v).
Proof.
  split; [exact seed_tree_reachable|].
  apply (rank_offset_invariant INT_MAX seed_tree). exact seed_tree_reachable.
Defined.

Lemma avl_balance_witness :
  reachable INT_MAX seed_tree
  ∧ walk [R] (root seed_tree)
    = Node 2 7 6 3 (Node 1 6 6 1 Nil Nil)
           (Node 1 8 8 2 Nil (Node 1 9 9 1 Nil Nil))
  ∧ Z.abs (height (Node 1 6 6 1 Nil Nil)
           - height (Node 1 8 8 2 Nil (Node 1 9 9 1 Nil Nil))) ≤ 1
  ∧ 3 = 1 + Z.max (get_depth (Node 1 6 6 1 Nil Nil))
                  (get_depth (Node 1 8 8 2 Nil (Node 1 9 9 1 Nil Nil)))
  ∧ 3 = height (Node 2 7 6 3 (Node 1 6 6 1 Nil Nil)
                     (Node 1 8 8 2 Nil (Node 1 9 9 1 Nil Nil))).
Proof.
  split; [exact seed_tree_reachable|]. split; [reflexivity|].
  apply (avl_balance INT_MAX seed_tree seed_tree_reachable [R] 2 7 6 3).
  reflexivity.
Defined.

Lemma min_invariant_witness :
  reachable INT_MAX seed_tree
  ∧ walk [R] (root seed_tree)
    = Node 2 7 6 3 (Node 1 6 6 1 Nil Nil)
           (Node 1 8 8 2 Nil (Node 1 9 9 1 Nil Nil))
  ∧ 6 = Z.min 7 (Z.min (get_min INT_MAX (Node 1 6 6 1 Nil Nil))
                       (get_min INT_MAX
                          (Node 1 8 8 2 Nil (Node 1 9 9 1 Nil Nil)))).
Proof.
  split; [exact seed_tree_reachable|]. split; [reflexivity|].
  apply (min_invariant INT_MAX seed_tree seed_tree_reachable [R] 2 7 6 3).
  reflexivity.
Defined.

Lemma update_correct_witness :
  reachable INT_MAX seed_tree ∧ 0 ≤ 2 < n_nodes seed_tree
  ∧ to_vector (update_op 2 12 seed_tree)
    = <[Z.to_nat 2 := 12]> (to_vector seed_tree)
  ∧ access 2 (update_op 2 12 seed_tree)
    = Some (12, update_op 2 12 seed_tree)
  ∧ (∀ q, 0 ≤ q → q ≠ 2 →
       fst <$> access q (update_op 2 12 seed_tree)
       = fst <$> access q seed_tree)
  ∧ (∀ i, i ≠ Z.to_nat 2 →
       to_vector (update_op 2 12 seed_tree) !! i = to_vector seed_tree !! i)
  ∧ skeleton (root (update_op 2 12 seed_tree)) = skeleton (root seed_tree)
  ∧ n_nodes (update_op 2 12 seed_tree) = n_nodes seed_tree.
Proof.
  split; [exact seed_tree_reachable|].
  split; [unfold seed_tree; simpl; lia|].
  apply (update_correct INT_MAX seed_tree 2 12).
  - exact seed_tree_reachable.
  - unfold seed_tree; simpl; lia.
Defined.

Lemma access_out_of_range_witness :
  n_nodes seed_tree ≤ 12 ∧ access 12 seed_tree = Some (0, seed_tree).
Proof.
  split; [unfold seed_tree; simpl; lia|].
  apply (access_out_of_range seed_tree 12). unfold seed_tree; simpl; lia.
Defined.

Lemma update_out_of_range_noop_witness :
  reachable INT_MAX seed_tree ∧ n_nodes seed_tree ≤ 12
  ∧ update_op 12 0 seed_tree = seed_tree.
Proof.
  split; [exact seed_tree_reachable|].
  split; [unfold seed_tree; simpl; lia|].
  apply (update_out_of_range_noop INT_MAX seed_tree 12 0).
  - exact seed_tree_reachable.
  - unfold seed_tree; simpl; lia.
Defined.

Lemma range_min_clamped_witness :
  reachable INT_MAX seed_tree ∧ n_nodes seed_tree < 20
  ∧ range_min INT_MAX 3 20 seed_tree
    = range_min INT_MAX 3 (n_nodes seed_tree) seed_tree
  ∧ (3 = 0 →
     range_min INT_MAX 3 20 seed_tree
     = (get_min INT_MAX (root seed_tree), seed_tree)).
Proof.
  split; [exact seed_tree_reachable|].
  split; [unfold seed_tree; simpl; lia|].
  apply (range_min_clamped INT_MAX seed_tree 3 20).
  - exact seed_tree_reachable.
  - unfold seed_tree; simpl; lia.
Defined.

(** ** Instances of the further properties *)

Lemma access_in_range_correct_witness :
  reachable INT_MAX seed_tree ∧ 0 ≤ 1 < n_nodes seed_tree
  ∧ ∃ x, to_vector seed_tree !! Z.to_nat 1 = Some x
         ∧ access 1 seed_tree = Some (x, seed_tree).
Proof.
  split; [exact seed_tree_reachable|].
  split; [unfold seed_tree; simpl; lia|].
  apply (access_in_range_correct INT_MAX seed_tree 1).
  - exact seed_tree_reachable.
  - unfold seed_tree; simpl; lia.
Defined.


Lemma range_min_any_bounds_witness :
  reachable INT_MAX seed_tree
  ∧ range_min INT_MAX 5 40 seed_tree
    = (list_min INT_MAX (slice 5 40 (to_vector seed_tree)), seed_tree).
Proof.
  split; [exact seed_tree_reachable|].
  apply (range_min_any_bounds INT_MAX seed_tree 5 40).
  exact seed_tree_reachable.
Defined.

Lemma range_min_empty_interval_witness :
  reachable INT_MAX seed_tree ∧ (3 ≤ 7 ∨ n_nodes seed_tree ≤ 7 ∨ 3 ≤ 0)
  ∧ (range_min INT_MAX 7 3 seed_tree).1 = INT_MAX.
Proof.
  split; [exact seed_tree_reachable|]. split; [left; lia|].
  apply (range_min_empty_interval INT_MAX seed_tree 7 3).
  - exact seed_tree_reachable.
  - left. lia.
Defined.

Lemma range_min_whole_witness :
  reachable INT_MAX seed_tree
  ∧ range_min INT_MAX 0 (n_nodes seed_tree) seed_tree
    = (get_min INT_MAX (root seed_tree), seed_tree)
  ∧ get_min INT_MAX (root seed_tree) = list_min INT_MAX (to_vector seed_tree).
Proof.
  split; [exact seed_tree_reachable|].
  apply (range_min_whole INT_MAX seed_tree). exact seed_tree_reachable.
Defined.

Lemma range_min_single_witness :
  reachable INT_MAX seed_tree ∧ 0 ≤ 4 < n_nodes seed_tree
  ∧ access 4 seed_tree
    = Some ((range_min INT_MAX 4 (4 + 1) seed_tree).1, seed_tree).
Proof.
  split; [exact seed_tree_reachable|].
  split; [unfold seed_tree; simpl; lia|].
  apply (range_min_single INT_MAX seed_tree 4).
  - exact seed_tree_reachable.
  - unfold seed_tree; simpl; lia.
Defined.

Lemma range_min_split_witness :
  reachable INT_MAX seed_tree ∧ 1 ≤ 4 ≤ 9
  ∧ (range_min INT_MAX 1 9 seed_tree).1
    = Z.min (range_min INT_MAX 1 4 seed_tree).1
            (range_min INT_MAX 4 9 seed_tree).1.
Proof.
  split; [exact seed_tree_reachable|]. split; [lia|].
  apply (range_min_split INT_MAX seed_tree 1 4 9).
  - exact seed_tree_reachable.
  - lia.
Defined.

Lemma range_min_monotone_witness :
  reachable INT_MAX seed_tree ∧ 1 ≤ 3 ∧ 7 ≤ 9
  ∧ (range_min INT_MAX 1 9 seed_tree).1 ≤ (range_min INT_MAX 3 7 seed_tree).1.
Proof.
  split; [exact seed_tree_reachable|]. split; [lia|]. split; [lia|].
  apply (range_min_monotone INT_MAX seed_tree 3 1 7 9).
  - exact seed_tree_reachable.
  - lia.
  - lia.
Defined.

Lemma update_then_range_min_witness :
  reachable INT_MAX seed_tree ∧ 0 ≤ 2 < n_nodes seed_tree ∧ 12 ≤ INT_MAX
  ∧ (¬ (1 ≤ 2 < 3) →
     (range_min INT_MAX 1 3 (update_op 2 12 seed_tree)).1
     = (range_min INT_MAX 1 3 seed_tree).1)
  ∧ (1 ≤ 2 < 3 →
     (range_min INT_MAX 1 3 (update_op 2 12 seed_tree)).1
     = Z.min 12 (Z.min (range_min INT_MAX 1 2 seed_tree).1
                       (range_min INT_MAX (2 + 1) 3 seed_tree).1)).
Proof.
  split; [exact seed_tree_reachable|].
  split; [unfold seed_tree; simpl; lia|].
  split; [unfold INT_MAX; lia|].
  apply (update_then_range_min INT_MAX seed_tree 2 12 1 3).
  - exact seed_tree_reachable.
  - unfold seed_tree; simpl; lia.
  - unfold INT_MAX; lia.
Defined.

Lemma insert_then_access_witness :
  reachable INT_MAX seed_tree ∧ 0 ≤ 0 ≤ n_nodes seed_tree
  ∧ ∃ t', insert_op 0 12 seed_tree = Some t'
          ∧ access 0 t' = Some (12, t')
          ∧ (∀ q, 0 ≤ q < 0 →
               fst <$> access q t' = fst <$> access q seed_tree)
          ∧ (∀ q, 0 ≤ q < n_nodes seed_tree →
               fst <$> access (q + 1) t' = fst <$> access q seed_tree).
Proof.
  split; [exact seed_tree_reachable|].
  split; [unfold seed_tree; simpl; lia|].
  apply (insert_then_access INT_MAX seed_tree 0 12).
  - exact seed_tree_reachable.
  - unfold seed_tree; simpl; lia.
Defined.

Lemma insert_then_range_min_witness :
  reachable INT_MAX seed_tree ∧ 0 ≤ 0 ≤ n_nodes seed_tree ∧ 12 ≤ INT_MAX
  ∧ ∃ t', insert_op 0 12 seed_tree = Some t'
          ∧ (3 ≤ 0 →
             (range_min INT_MAX 1 3 t').1 = (range_min INT_MAX 1 3 seed_tree).1)
          ∧ (0 < 1 →
             (range_min INT_MAX 1 3 t').1
             = (range_min INT_MAX (1 - 1) (3 - 1) seed_tree).1)
          ∧ (1 ≤ 0 < 3 →
             (range_min INT_MAX 1 3 t').1
             = Z.min 12 (Z.min (range_min INT_MAX 1 0 seed_tree).1
                               (range_min INT_MAX 0 (3 - 1) seed_tree).1)).
Proof.
  split; [exact seed_tree_reachable|].
  split; [unfold seed_tree; simpl; lia|].
  split; [unfold INT_MAX; lia|].
  apply (insert_then_range_min INT_MAX seed_tree 0 12 1 3).
  - exact seed_tree_reachable.
  - unfold seed_tree; simpl; lia.
  - unfold INT_MAX; lia.
Defined.

Lemma update_with_current_value_witness :
  reachable INT_MAX seed_tree ∧ 0 ≤ 1 < n_nodes seed_tree
  ∧ access 1 seed_tree = Some (1, seed_tree)
  ∧ update_op 1 1 seed_tree = seed_tree.
Proof.
  split; [exact seed_tree_reachable|].
  split; [unfold seed_tree; simpl; lia|].
  split; [reflexivity|].
  apply (update_with_current_value INT_MAX seed_tree 1 1).
  - exact seed_tree_reachable.
  - unfold seed_tree; simpl; lia.
  - reflexivity.
Defined.

Lemma search_null_iff_witness :
  reachable INT_MAX seed_tree
  ∧ (search (root seed_tree) 12 = Nil ↔ ¬ (0 ≤ 12 < n_nodes seed_tree)).
Proof.
  split; [exact seed_tree_reachable|].
  apply (search_null_iff INT_MAX seed_tree 12). exact seed_tree_reachable.
Defined.

Lemma update_negative_noop_witness :
  reachable INT_MAX seed_tree ∧ -1 < 0 ∧ update_op (-1) 5 seed_tree = seed_tree.
Proof.
  split; [exact seed_tree_reachable|]. split; [lia|].
  apply (update_negative_noop INT_MAX seed_tree (-1) 5).
  - exact seed_tree_reachable.
  - lia.
Defined.

Lemma access_negative_null_witness :
  reachable INT_MAX seed_tree ∧ -1 < 0 ∧ root seed_tree ≠ Nil
  ∧ access (-1) seed_tree = None.
Proof.
  split; [exact seed_tree_reachable|]. split; [lia|].
  split; [unfold seed_tree; simpl; discriminate|].
  apply (access_negative_null INT_MAX seed_tree (-1)).
  - exact seed_tree_reachable.
  - lia.
  - unfold seed_tree; simpl; discriminate.
Defined.

Lemma insert_past_end_witness :
  reachable INT_MAX seed_tree ∧ n_nodes seed_tree < 20
  ∧ ∃ t', insert_op 20 0 seed_tree = Some t'
          ∧ to_vector t' = to_vector seed_tree ++ [0]
          ∧ n_nodes t' = n_nodes seed_tree + 1
          ∧ access (n_nodes seed_tree) t' = None
          ∧ access 20 t' = Some (0, t').
Proof.
  split; [exact seed_tree_reachable|].
  split; [unfold seed_tree; simpl; lia|].
  apply (insert_past_end INT_MAX seed_tree 20 0).
  - exact seed_tree_reachable.
  - unfold seed_tree; simpl; lia.
Defined.

Lemma right_rotate_preserves_witness :
  right_rotate (Node 1 5 3 2 (Node 0 3 3 1 Nil Nil) Nil)
  = Some (Node 0 3 3 2 Nil (Node 1 5 5 1 Nil Nil))
  ∧ inorder (Node 0 3 3 2 Nil (Node 1 5 5 1 Nil Nil))
    = inorder (Node 1 5 3 2 (Node 0 3 3 1 Nil Nil) Nil)
  ∧ size (Node 0 3 3 2 Nil (Node 1 5 5 1 Nil Nil))
    = size (Node 1 5 3 2 (Node 0 3 3 1 Nil Nil) Nil)
  ∧ (rank_inv 0 (Node 1 5 3 2 (Node 0 3 3 1 Nil Nil) Nil) →
     rank_inv 0 (Node 0 3 3 2 Nil (Node 1 5 5 1 Nil Nil)))
  ∧ (min_inv INT_MAX (Node 1 5 3 2 (Node 0 3 3 1 Nil Nil) Nil) →
     min_inv INT_MAX (Node 0 3 3 2 Nil (Node 1 5 5 1 Nil Nil))
     ∧ get_min INT_MAX (Node 0 3 3 2 Nil (Node 1 5 5 1 Nil Nil))
       = get_min INT_MAX (Node 1 5 3 2 (Node 0 3 3 1 Nil Nil) Nil)).
Proof.
  split; [reflexivity|].
  apply (right_rotate_preserves INT_MAX 0). reflexivity.
Defined.

Lemma left_rotate_preserves_witness :
  left_rotate (Node 0 3 3 2 Nil (Node 1 5 5 1 Nil Nil))
  = Some (Node 1 5 3 2 (Node 0 3 3 1 Nil Nil) Nil)
  ∧ inorder (Node 1 5 3 2 (Node 0 3 3 1 Nil Nil) Nil)
    = inorder (Node 0 3 3 2 Nil (Node 1 5 5 1 Nil Nil))
  ∧ size (Node 1 5 3 2 (Node 0 3 3 1 Nil Nil) Nil)
    = size (Node 0 3 3 2 Nil (Node 1 5 5 1 Nil Nil))
  ∧ (rank_inv 0 (Node 0 3 3 2 Nil (Node 1 5 5 1 Nil Nil)) →
     rank_inv 0 (Node 1 5 3 2 (Node 0 3 3 1 Nil Nil) Nil))
  ∧ (min_inv INT_MAX (Node 0 3 3 2 Nil (Node 1 5 5 1 Nil Nil)) →
     min_inv INT_MAX (Node 1 5 3 2 (Node 0 3 3 1 Nil Nil) Nil)
     ∧ get_min INT_MAX (Node 1 5 3 2 (Node 0 3 3 1 Nil Nil) Nil)
       = get_min INT_MAX (Node 0 3 3 2 Nil (Node 1 5 5 1 Nil Nil))).
Proof.
  split; [reflexivity|].
  apply (left_rotate_preserves INT_MAX 0). reflexivity.
Defined.

Lemma right_then_left_rotate_witness :
  right_rotate (Node 1 5 3 2 (Node 0 3 3 1 Nil Nil) Nil)
  = Some (Node 0 3 3 2 Nil (Node 1 5 5 1 Nil Nil))
  ∧ cached_ok (Node 1 5 3 2 (Node 0 3 3 1 Nil Nil) Nil)
  ∧ cached_ok (walk [L] (Node 1 5 3 2 (Node 0 3 3 1 Nil Nil) Nil))
  ∧ left_rotate (Node 0 3 3 2 Nil (Node 1 5 5 1 Nil Nil))
    = Some (Node 1 5 3 2 (Node 0 3 3 1 Nil Nil) Nil).
Proof.
  split; [reflexivity|]. split; [split; reflexivity|].
  split; [split; reflexivity|].
  apply (right_then_left_rotate (Node 1 5 3 2 (Node 0 3 3 1 Nil Nil) Nil)).
  - reflexivity.
  - split; reflexivity.
  - split; reflexivity.
Defined.

Lemma left_then_right_rotate_witness :
  left_rotate (Node 0 3 3 2 Nil (Node 1 5 5 1 Nil Nil))
  = Some (Node 1 5 3 2 (Node 0 3 3 1 Nil Nil) Nil)
  ∧ cached_ok (Node 0 3 3 2 Nil (Node 1 5 5 1 Nil Nil))
  ∧ cached_ok (walk [R] (Node 0 3 3 2 Nil (Node 1 5 5 1 Nil Nil)))
  ∧ right_rotate (Node 1 5 3 2 (Node 0 3 3 1 Nil Nil) Nil)
    = Some (Node 0 3 3 2 Nil (Node 1 5 5 1 Nil Nil)).
Proof.
  split; [reflexivity|]. split; [split; reflexivity|].
  split; [split; reflexivity|].
  apply (left_then_right_rotate (Node 0 3 3 2 Nil (Node 1 5 5 1 Nil Nil))).
  - reflexivity.
  - split; reflexivity.
  - split; reflexivity.
Defined.

Lemma leaf_characterisation_witness :
  reachable INT_MAX seed_tree
  ∧ walk [R; L] (root seed_tree) = Node 1 6 6 1 Nil Nil
  ∧ (is_leaf (Node 1 6 6 1 Nil Nil) = Some true ↔ 1 = 1)
  ∧ (is_leaf (Node 1 6 6 1 Nil Nil) = Some true → 6 = 6 ∧ 1 = offset [R; L]).
Proof.
  split; [exact seed_tree_reachable|]. split; [reflexivity|].
  apply (leaf_characterisation INT_MAX seed_tree [R; L] 1 6 6 1 Nil Nil).
  - exact seed_tree_reachable.
  - reflexivity.
Defined.

Lemma depth_logarithmic_witness :
  reachable INT_MAX seed_tree
  ∧ 2 ^ (get_depth (walk [L] (root seed_tree)) / 2)
    ≤ size (walk [L] (root seed_tree)) + 1
  ∧ size (walk [L] (root seed_tree)) ≤ n_nodes seed_tree.
Proof.
  split; [exact seed_tree_reachable|].
  apply (depth_logarithmic INT_MAX seed_tree [L]). exact seed_tree_reachable.
Defined.

Lemma depth_fits_d_t_witness :
  reachable INT_MAX seed_tree ∧ 1 ≤ 4 ≤ 15 ∧ n_nodes seed_tree < 2 ^ (8 * 4)
  ∧ 0 ≤ get_depth (walk [] (root seed_tree)) ≤ d_t_max 4
  ∧ -128 ≤ get_balance (walk [] (root seed_tree)) ≤ 127.
Proof.
  split; [exact seed_tree_reachable|]. split; [lia|].
  split; [vm_compute; reflexivity|].
  apply (depth_fits_d_t INT_MAX seed_tree 4 []).
  - exact seed_tree_reachable.
  - lia.
  - vm_compute. reflexivity.
Defined.

Lemma min_range_flag_irrelevant_witness :
  rank_inv 1 (Node 1 8 8 2 Nil (Node 1 9 9 1 Nil Nil))
  ∧ min_inv INT_MAX (Node 1 8 8 2 Nil (Node 1 9 9 1 Nil Nil))
  ∧ 0 ≤ 1 ∧ 1 + size (Node 1 8 8 2 Nil (Node 1 9 9 1 Nil Nil)) ≤ 5
  ∧ min_range INT_MAX (Node 1 8 8 2 Nil (Node 1 9 9 1 Nil Nil)) 2 5 true
    = min_range INT_MAX (Node 1 8 8 2 Nil (Node 1 9 9 1 Nil Nil)) 2 5 false.
Proof.
  assert (rank_inv 1 (Node 1 8 8 2 Nil (Node 1 9 9 1 Nil Nil))) as Hrank.
  { simpl. repeat split; reflexivity. }
  assert (min_inv INT_MAX (Node 1 8 8 2 Nil (Node 1 9 9 1 Nil Nil))) as Hmin.
  { simpl. unfold INT_MAX. repeat split; lia. }
  split; [exact Hrank|]. split; [exact Hmin|]. split; [lia|].
  split; [simpl; lia|].
  apply (min_range_flag_irrelevant INT_MAX _ 1 2 5 Hrank Hmin).
  - lia.
  - simpl. lia.
Defined.
